(** * AcademicAi: the response formatting and conversation-context pipeline

    A shallow embedding of [src/app.py]: the rolling conversation context
    ([ConversationContext]), the two text transforms ([sanitize_response],
    [format_mathematical_notation]), the response generator
    ([generate_response_with_context]) and the [/api/query] handler.

    Python [str] values are sequences of Unicode code points.  The external
    collaborators (the generative model client, [random.choice], the request
    body) are explicit inputs; Python exceptions are values of [result]. *)

From Stdlib Require Import String Ascii DecimalString.
From Stdlib Require Import List NArith ZArith Bool Arith Lia.
Import ListNotations.
Local Open Scope list_scope.

(* ================================================================== *)
(** * Python strings *)
(* ================================================================== *)

Module PyStr.

Definition codepoint := N.
Definition str := list codepoint.

(** String literals are written as UTF-8 text and decoded to code points. *)
Fixpoint utf8_decode (bytes : list N) (pending : nat) (acc : N) : str :=
  match bytes with
  | [] => []
  | b :: rest =>
      if (b <? 128)%N then b :: utf8_decode rest 0 0
      else if (b <? 192)%N then
        let acc' := (acc * 64 + (b - 128))%N in
        match pending with
        | 0 => utf8_decode rest 0 0
        | 1 => acc' :: utf8_decode rest 0 0
        | S n => utf8_decode rest n acc'
        end
      else if (b <? 224)%N then utf8_decode rest 1 (b - 192)%N
      else if (b <? 240)%N then utf8_decode rest 2 (b - 224)%N
      else utf8_decode rest 3 (b - 240)%N
  end.

Definition u (s : string) : str :=
  utf8_decode (map N_of_ascii (list_ascii_of_string s)) 0 0.

Definition NL : codepoint := 10%N.
Definition DQUOTE : codepoint := 34%N.

(** [a == b] on strings. *)
Fixpoint str_eqb (a b : str) : bool :=
  match a, b with
  | [], [] => true
  | x :: a', y :: b' => (x =? y)%N && str_eqb a' b'
  | _, _ => false
  end.

(** [t.startswith(p)]. *)
Fixpoint startswith (p t : str) : bool :=
  match p, t with
  | [], _ => true
  | _ :: _, [] => false
  | a :: p', b :: t' => (a =? b)%N && startswith p' t'
  end.

(** [x in s] for strings: substring test. *)
Fixpoint str_in (x s : str) : bool :=
  startswith x s || match s with [] => false | _ :: tl => str_in x tl end.

(** [text.replace(old, new)]: every non-overlapping occurrence, scanning
    left to right; [skip] counts the code points of the occurrence that
    was just replaced and are still to be dropped. *)
Fixpoint replace_from (old new text : str) (skip : nat) : str :=
  match text with
  | [] => []
  | c :: tl =>
      match skip with
      | S k => replace_from old new tl k
      | O =>
          if startswith old text
          then new ++ replace_from old new tl (length old - 1)
          else c :: replace_from old new tl 0
      end
  end.

Definition str_replace (text old new : str) : str :=
  match old with
  | [] => new ++ flat_map (fun c => c :: new) text
  | _ :: _ => replace_from old new text 0
  end.

(** [text.replace(old, new, 1)]: the first occurrence only. *)
Fixpoint str_replace1 (text old new : str) {struct text} : str :=
  if startswith old text then new ++ skipn (length old) text
  else match text with
       | [] => []
       | c :: tl => c :: str_replace1 tl old new
       end.

(** [str.isspace] on one code point: the 29 code points CPython treats as
    whitespace; [str.strip()] and the regex class [\s] both use it. *)
Definition isspace (c : codepoint) : bool :=
  ((9 <=? c) && (c <=? 13) || (28 <=? c) && (c <=? 32)
   || (c =? 133) || (c =? 160) || (c =? 5760)
   || (8192 <=? c) && (c <=? 8202)
   || (c =? 8232) || (c =? 8233) || (c =? 8239) || (c =? 8287)
   || (c =? 12288))%N.

Fixpoint lstrip (s : str) : str :=
  match s with
  | [] => []
  | c :: tl => if isspace c then lstrip tl else s
  end.

Definition rstrip (s : str) : str := rev (lstrip (rev s)).

(** [s.strip()]. *)
Definition strip (s : str) : str := rstrip (lstrip s).

(** [text.split(sep)] for a non-empty separator; [cur] is the piece being
    read, most recent code point first. *)
Fixpoint split_from (sep text : str) (skip : nat) (cur : str) : list str :=
  match text with
  | [] => [rev cur]
  | c :: tl =>
      match skip with
      | S k => split_from sep tl k cur
      | O =>
          if startswith sep text
          then rev cur :: split_from sep tl (length sep - 1) []
          else split_from sep tl 0 (c :: cur)
      end
  end.

Definition str_split (text sep : str) : list str := split_from sep text 0 [].

(** [sep.join(pieces)]. *)
Fixpoint str_join (sep : str) (pieces : list str) : str :=
  match pieces with
  | [] => []
  | [x] => x
  | x :: rest => x ++ sep ++ str_join sep rest
  end.

(** Truthiness of a string: non-empty. *)
Definition truthy (s : str) : bool :=
  match s with [] => false | _ :: _ => true end.

(** [str(n)] for a non-negative integer. *)
Definition str_of_nat (n : nat) : str :=
  u (NilEmpty.string_of_uint (Nat.to_uint n)).

(** Lower-casing of the ASCII range. *)
Definition ascii_lower (c : codepoint) : codepoint :=
  if ((65 <=? c) && (c <=? 90))%N then (c + 32)%N else c.

(** [s.lower()] for a string whose code points are all ASCII. *)
Definition lower_ascii_text (s : str) : str := map ascii_lower s.

Definition is_ascii (c : codepoint) : bool := (c <? 128)%N.

Definition ascii_digit (c : codepoint) : bool := ((48 <=? c) && (c <=? 57))%N.

Definition ascii_letter (c : codepoint) : bool :=
  ((65 <=? c) && (c <=? 90) || (97 <=? c) && (c <=? 122))%N.

End PyStr.
Import PyStr.

(* ================================================================== *)
(** * The regular expressions of the program *)
(* ================================================================== *)

(** The patterns of [app.py] are built from literals, character classes,
    greedy and lazy repetition of one class, one alternation and the
    line-start anchor.  A pattern is written in continuation style, as a
    backtracking matcher tried at one position: it returns the number of
    code points the leftmost-first match consumes there. *)
Module Re.

Definition cont := str -> option nat.

Definition re_end : cont := fun _ => Some 0.

Definition re_lit (s : str) (k : cont) : cont := fun t =>
  if startswith s t
  then option_map (Nat.add (length s)) (k (skipn (length s) t))
  else None.

Definition re_cls (p : codepoint -> bool) (k : cont) : cont := fun t =>
  match t with
  | c :: tl => if p c then option_map S (k tl) else None
  | [] => None
  end.

(** Greedy [p*]: take one more when the rest then matches, else stop here. *)
Fixpoint re_star (p : codepoint -> bool) (k : cont) (t : str) : option nat :=
  match t with
  | c :: tl =>
      if p c then
        match re_star p k tl with
        | Some n => Some (S n)
        | None => k t
        end
      else k t
  | [] => k []
  end.

Definition re_plus (p : codepoint -> bool) (k : cont) : cont :=
  re_cls p (re_star p k).

(** Lazy [p*?]: stop here when the rest matches, else take one more. *)
Fixpoint re_lazy (p : codepoint -> bool) (k : cont) (t : str) : option nat :=
  match k t with
  | Some n => Some n
  | None =>
      match t with
      | c :: tl => if p c then option_map S (re_lazy p k tl) else None
      | [] => None
      end
  end.

Definition re_alt (a b : cont) : cont := fun t =>
  match a t with
  | Some n => Some n
  | None => b t
  end.

(** A pattern is told whether the position is at the start of a line
    (start of the text, or just after a newline): [^] under [re.MULTILINE]. *)
Definition pattern := bool -> cont.

Definition anchored_bol (k : cont) : pattern := fun bol =>
  if bol then k else fun _ => None.

Definition unanchored (k : cont) : pattern := fun _ => k.

(** [re.finditer(pattern, text)]: the [group(0)] of each match, in order.
    The search resumes where the previous match ended; no pattern of the
    program matches the empty string. *)
Fixpoint finditer_from (p : pattern) (bol : bool) (t : str) (skip : nat)
  : list str :=
  match t with
  | [] => []
  | c :: tl =>
      let bol' := (c =? NL)%N in
      match skip with
      | S k => finditer_from p bol' tl k
      | O =>
          match p bol t with
          | Some (S n) => firstn (S n) t :: finditer_from p bol' tl n
          | _ => finditer_from p bol' tl 0
          end
      end
  end.

Definition finditer (p : pattern) (text : str) : list str :=
  finditer_from p true text 0.

(** [re.sub(pattern, repl, text)], the replacement given as a function of
    [group(0)]. *)
Fixpoint sub_from (p : pattern) (repl : str -> str) (bol : bool) (t : str)
  (skip : nat) : str :=
  match t with
  | [] => []
  | c :: tl =>
      let bol' := (c =? NL)%N in
      match skip with
      | S k => sub_from p repl bol' tl k
      | O =>
          match p bol t with
          | Some (S n) => repl (firstn (S n) t) ++ sub_from p repl bol' tl n
          | _ => c :: sub_from p repl bol' tl 0
          end
      end
  end.

Definition sub (p : pattern) (repl : str -> str) (text : str) : str :=
  sub_from p repl true text 0.

(** A group that is the match without [n] delimiters on each side. *)
Definition inner_group (n : nat) (g0 : str) : str :=
  firstn (length g0 - 2 * n) (skipn n g0).

End Re.
Import Re.

(* ================================================================== *)
(** * Exceptions *)
(* ================================================================== *)

Inductive exn : Type :=
| IndexError        (* list.pop / random.choice on an empty list *)
| AttributeError    (* a method looked up on a value that lacks it *)
| BadRequest        (* the request body is not JSON *)
.

Inductive result (A : Type) : Type :=
| Ok (a : A)
| Raise (e : exn).
Arguments Ok {A} a.
Arguments Raise {A} e.

Definition bind {A B : Type} (c : result A) (k : A -> result B) : result B :=
  match c with
  | Ok a => k a
  | Raise e => Raise e
  end.

Notation "x <- c ;; k" := (bind c (fun x => k))
  (at level 61, c at next level, right associativity).

(* ================================================================== *)
(** * ConversationContext *)
(* ================================================================== *)

Record Interaction : Type := {
  user_query : str;
  ai_response : str
}.

Record ConversationContext : Type := {
  history : list Interaction;
  max_history : Z;
  current_topic : option str;
  difficulty_level : str
}.

(** [ConversationContext.__init__(max_history)]. *)
Definition ConversationContext_init (max_history : Z) : ConversationContext :=
  {| history := [];
     max_history := max_history;
     current_topic := None;
     difficulty_level := u "intermediate" |}.

Definition default_max_history : Z := 5.

(** The process-wide [conversation_context = ConversationContext()]. *)
Definition conversation_context : ConversationContext :=
  ConversationContext_init default_max_history.

Definition set_history (self : ConversationContext) (h : list Interaction)
  : ConversationContext :=
  {| history := h;
     max_history := max_history self;
     current_topic := current_topic self;
     difficulty_level := difficulty_level self |}.

Definition set_current_topic (self : ConversationContext) (t : option str)
  : ConversationContext :=
  {| history := history self;
     max_history := max_history self;
     current_topic := t;
     difficulty_level := difficulty_level self |}.

Definition set_difficulty_level (self : ConversationContext) (l : str)
  : ConversationContext :=
  {| history := history self;
     max_history := max_history self;
     current_topic := current_topic self;
     difficulty_level := l |}.

(** [lst.pop(0)], keeping the remaining list. *)
Definition list_pop0 {A : Type} (l : list A) : result (list A) :=
  match l with
  | [] => Raise IndexError
  | _ :: tl => Ok tl
  end.

Definition add_interaction (self : ConversationContext)
  (user_query ai_response : str) : result ConversationContext :=
  h <- (if (Z.of_nat (length (history self)) >=? max_history self)%Z
        then list_pop0 (history self)
        else Ok (history self)) ;;
  Ok (set_history self
        (h ++ [{| user_query := user_query; ai_response := ai_response |}])).

Definition interaction_of (call : str * str) : Interaction :=
  {| user_query := fst call; ai_response := snd call |}.

(** A sequence of [add_interaction] calls, each on the context the previous
    one left. *)
Fixpoint add_interactions (self : ConversationContext) (calls : list (str * str))
  : result ConversationContext :=
  match calls with
  | [] => Ok self
  | call :: rest =>
      self' <- add_interaction self (fst call) (snd call) ;;
      add_interactions self' rest
  end.

(** The [topics] dictionary, in insertion order (the order [items()]
    enumerates it). *)
Definition topics : list (str * list str) :=
  [ (u "mathematics",
      [u "math"; u "algebra"; u "geometry"; u "calculus"; u "trigonometry"]);
    (u "science", [u "physics"; u "chemistry"; u "biology"; u "science"]);
    (u "language", [u "english"; u "grammar"; u "writing"; u "literature"]);
    (u "history", [u "history"; u "historical"; u "civilization"; u "era"]);
    (u "technology", [u "computer"; u "programming"; u "tech"; u "coding"]) ].

Definition complexity_indicators : list (str * list str) :=
  [ (u "advanced",
      [u "prove"; u "derive"; u "complex"; u "advanced"; u "theoretical"]);
    (u "beginner",
      [u "explain"; u "what is"; u "basic"; u "simple"; u "introduction"]) ].

(** The 15 decorative symbols of [generate_emoji]. *)
Definition emojis : list str :=
  [ [128522]; [127775]; [128077]; [128640]; [129300]; [128161]; [128218];
    [127891]; [129504]; [10024]; [127752]; [128079]; [129299]; [128170];
    [127774] ]%N.

(** [random.choice(seq)]: [rnd] is the generator's draw, reduced to an
    index of the sequence. *)
Definition random_choice {A : Type} (rnd : nat) (seq : list A) : result A :=
  match nth_error seq (rnd mod length seq) with
  | Some x => Ok x
  | None => Raise IndexError
  end.

Definition generate_emoji (rnd : nat) : result str := random_choice rnd emojis.

(* ================================================================== *)
(** * Text transforms and the response generator *)
(* ================================================================== *)

(** An opening tag with one [class] attribute, its value in double quotes. *)
Definition open_tag (tag cls : str) : str :=
  u "<" ++ tag ++ u " class=" ++ DQUOTE :: cls ++ DQUOTE :: u ">".

Definition close_tag (tag : str) : str := u "</" ++ tag ++ u ">".

(** The patterns of [format_mathematical_notation]: a doubled asterisk, an
    asterisk, a span between doubled dollar signs (DOTALL), a span between
    dollar signs on one line, and a letter optionally followed by an
    underscore and one letter or digit. *)
Definition pat_double_star : pattern := unanchored (re_lit (u "**") re_end).

Definition pat_star : pattern := unanchored (re_lit (u "*") re_end).

Definition pat_block_math : pattern :=
  unanchored (re_lit (u "$$") (re_lazy (fun _ => true) (re_lit (u "$$") re_end))).

Definition pat_inline_math : pattern :=
  unanchored
    (re_lit (u "$") (re_lazy (fun c => negb (c =? NL)%N) (re_lit (u "$") re_end))).

Definition pat_symbol : pattern :=
  unanchored
    (re_alt
       (re_cls ascii_letter
          (re_lit (u "_") (re_cls (fun c => ascii_digit c || ascii_letter c) re_end)))
       (re_cls ascii_letter re_end)).

Definition stopwords : list str :=
  [u "a"; u "an"; u "the"; u "in"; u "on"; u "at"; u "to"; u "for"].

(** [x in lst] for a list of strings. *)
Definition list_in (x : str) (lst : list str) : bool := existsb (str_eqb x) lst.

Definition equation_div (g0 : str) : str :=
  open_tag (u "div") (u "equation") ++ strip (inner_group 2 g0) ++ close_tag (u "div").

Definition math_span (g0 : str) : str :=
  open_tag (u "span") (u "math-expression") ++ strip (inner_group 1 g0)
  ++ close_tag (u "span").

Definition step_div (step : str) : str :=
  open_tag (u "div") (u "solution-step") ++ strip step ++ close_tag (u "div").

Definition symbol_span (tok : str) : str :=
  open_tag (u "span") (u "symbol") ++ tok ++ close_tag (u "span").

(** One turn of the symbol loop. *)
Definition highlight_step (text tok : str) : str :=
  if list_in tok stopwords then text
  else str_replace1 text tok (symbol_span tok).

(** The symbol loop (the final pass): the matches are those of the text as
    it stands when the loop starts, the replacements act on the text as it
    stands at each turn. *)
Definition highlight_symbols (text : str) : str :=
  fold_left highlight_step (finditer pat_symbol text) text.

Definition format_mathematical_notation (text : str) : str :=
  let text := sub pat_double_star (fun _ => u "^") text in
  let text := sub pat_star (fun _ => [215%N]) text in
  let equations := finditer pat_block_math text in
  let text :=
    fold_left (fun text eq => str_replace text eq (equation_div eq)) equations text in
  let inline_math := finditer pat_inline_math text in
  let text :=
    fold_left (fun text m => str_replace text m (math_span m)) inline_math text in
  let steps := str_split text [NL; NL] in
  let formatted_steps :=
    map step_div (filter (fun step => truthy (strip step)) steps) in
  let text := str_join [NL] formatted_steps in
  highlight_symbols text.

(** The five replacements of [sanitize_response], in the order of the
    source. *)
Definition escape_html (text : str) : str :=
  str_replace
    (str_replace
       (str_replace
          (str_replace (str_replace text (u "&") (u "&amp;")) (u "<") (u "&lt;"))
          (u ">") (u "&gt;"))
       [DQUOTE] (u "&quot;"))
    (u "'") (u "&#039;").

Definition pat_newlines : pattern :=
  unanchored (re_lit [NL; NL; NL] (re_star (fun c => (c =? NL)%N) re_end)).

Definition pat_conclusion : pattern :=
  anchored_bol (re_lit (u "Conclusion:") re_end).

Definition bold (g0 : str) : str := u "**" ++ g0 ++ u "**".

(** The fixed passage of the dimensional-analysis shortcut. *)
Definition canned_response : str := u
"😮‍💨 💗 Dimensional Analysis of Viscosity

**Step 1: Define the Physical Quantity**
Viscosity (η) is a measure of a fluid's resistance to flow, defined as the ratio of shear stress to shear rate.

**Symbolic Representation:**
η = τ / γ̇

**Step 2: Dimensional Analysis of Components**
- Shear Stress (τ): Force per unit area
  * Dimensions: [M L T^-2] / [L^2] = [M L^-1 T^-2]
- Shear Rate (γ̇): Velocity gradient
  * Dimensions: [L T^-1] / [L] = [T^-1]

**Step 3: Dimensional Consistency**
Combining the dimensions:
[τ / γ̇] = [M L^-1 T^-2] / [T^-1] = [M L^-1 T^-1]

**Step 4: Physical Interpretation**
The dimensional analysis confirms that viscosity has consistent units:
- Mass per length per time
- Typically expressed in Pascal-seconds (Pa·s)

**Key Insights:**
- Viscosity quantifies a fluid's internal resistance to flow
- Dimensional analysis validates the physical meaning of the quantity
".

Definition trigger_words : list str :=
  [u "dimension"; u "dimensional analysis"; u "viscosity"; u "prove";
   u "derivation"].

Definition apology : str :=
  u "I'm sorry, I encountered an error processing your query. ".

Definition context_prompt (query : str) (n_history : nat) : str :=
  u "Context:
- Current Query: " ++ query ++ u "
- Conversation History: " ++ str_of_nat n_history ++ u " previous interactions

Guidelines:
1. Provide a clear, comprehensive response
2. Break down complex topics into digestible steps
3. Use engaging and accessible language
4. Include practical examples or real-world applications
5. Use standard mathematical notation for equations

Query: " ++ query ++ u "
".

(** The external world of one request: the model client ([None] when
    [generate_content] or [response.text] raises) and the random draw. *)
Record World : Type := {
  generate_content : str -> option str;
  entropy : nat
}.

(** A decoded JSON value. *)
#[warnings="-register-all"]
Inductive json : Type :=
| JNull
| JBool (b : bool)
| JNumber (n : Z)
| JString (s : str)
| JArray (items : list json)
| JObject (members : list (str * json)).

(** [data.get(key, default)] on the dictionary decoded from an object: a
    repeated key keeps its last value. *)
Definition dict_get (members : list (str * json)) (key : str) (default : json)
  : json :=
  fold_left (fun acc kv => if str_eqb (fst kv) key then snd kv else acc)
    members default.

(** What [query] returns: the success body with status 200, or the error
    body with status 500. *)
Inductive response : Type :=
| Success (response_text : str)
| Failure (error : exn).

Section App.

(** [str.lower()]: Unicode lower-casing is Python's own, its case tables
    are no part of the repository.  What is used of it: on a text of ASCII
    code points it lower-cases the letters A to Z. *)
Variable str_lower : str -> str.
Hypothesis str_lower_ascii :
  forall s, forallb is_ascii s = true -> str_lower s = lower_ascii_text s.

(** The regex class [\d]: Unicode decimal digits, Python's own as well. *)
Variable is_decimal : codepoint -> bool.

(** [any(keyword in query.lower() for keyword in keywords)]. *)
Definition any_keyword_in (keywords : list str) (query : str) : bool :=
  existsb (fun keyword => str_in keyword (str_lower query)) keywords.

Fixpoint detect_topic_items (items : list (str * list str))
  (self : ConversationContext) (query : str)
  : option str * ConversationContext :=
  match items with
  | [] => (None, self)
  | (topic, keywords) :: rest =>
      if any_keyword_in keywords query
      then (Some topic, set_current_topic self (Some topic))
      else detect_topic_items rest self query
  end.

(** [detect_topic]: the returned topic ([None] for Python's [None]) and the
    context after the call. *)
Definition detect_topic (self : ConversationContext) (query : str)
  : option str * ConversationContext :=
  detect_topic_items topics self query.

Fixpoint adjust_difficulty_items (items : list (str * list str))
  (self : ConversationContext) (query : str) : ConversationContext :=
  match items with
  | [] => self
  | (level, indicators) :: rest =>
      if any_keyword_in indicators query
      then set_difficulty_level self level
      else adjust_difficulty_items rest self query
  end.

Definition adjust_difficulty (self : ConversationContext) (query : str)
  : ConversationContext :=
  adjust_difficulty_items complexity_indicators self query.

Definition pat_step : pattern :=
  anchored_bol
    (re_lit (u "Step") (re_star isspace (re_plus is_decimal (re_lit (u ":") re_end)))).

Definition sanitize_response (text : str) : str :=
  let text := sub pat_newlines (fun _ => [NL; NL]) text in
  let text := sub pat_step bold text in
  let text := sub pat_conclusion bold text in
  let text :=
    sub pat_block_math (fun g0 => u "**Equation:** " ++ inner_group 2 g0) text in
  let text :=
    sub pat_inline_math (fun g0 => u "*" ++ inner_group 1 g0 ++ u "*") text in
  let text := strip text in
  escape_html text.

(** [generate_response_with_context(query)], reading the history length of
    the shared context. *)
Definition generate_response_with_context (w : World)
  (ctx : ConversationContext) (query : str) : result str :=
  if any_keyword_in trigger_words query then
    Ok (format_mathematical_notation canned_response)
  else
    match generate_content w (context_prompt query (length (history ctx))) with
    | Some text => Ok (sanitize_response (format_mathematical_notation text))
    | None =>
        emoji <- generate_emoji (entropy w) ;;
        Ok (apology ++ emoji)
    end.

(** The body of [query]'s [try] block; a value without the method called
    on it raises [AttributeError]. *)
Definition query_body (w : World) (body : result json)
  (ctx : ConversationContext) : result (str * ConversationContext) :=
  data <- body ;;
  match data with
  | JObject members =>
      match dict_get members (u "query") (JString []) with
      | JString query_text =>
          response_text <- generate_response_with_context w ctx query_text ;;
          ctx' <- add_interaction ctx query_text response_text ;;
          Ok (response_text, ctx')
      | _ => Raise AttributeError
      end
  | _ => Raise AttributeError
  end.

(** The [/api/query] handler: the response and the shared context after
    the request. *)
Definition query (w : World) (body : result json) (ctx : ConversationContext)
  : response * ConversationContext :=
  match query_body w body ctx with
  | Ok (response_text, ctx') => (Success response_text, ctx')
  | Raise e => (Failure e, ctx)
  end.

(* ================================================================== *)
(** * Vocabulary of the properties *)
(* ================================================================== *)

(** The escaping chain as one pass. *)

Definition AMP : codepoint := 38%N.
Definition LT : codepoint := 60%N.
Definition GT : codepoint := 62%N.
Definition APOS : codepoint := 39%N.

(** What the chain makes of one code point of its input. *)
Definition escape_char (c : codepoint) : str :=
  if (AMP =? c)%N then u "&amp;"
  else if (LT =? c)%N then u "&lt;"
  else if (GT =? c)%N then u "&gt;"
  else if (DQUOTE =? c)%N then u "&quot;"
  else if (APOS =? c)%N then u "&#039;"
  else [c].

(** What follows the ampersand in the five entities. *)
Definition entity_tails : list str :=
  [u "amp;"; u "lt;"; u "gt;"; u "quot;"; u "#039;"].

(** Every ampersand of [s] is followed by an entity tail. *)
Fixpoint ampersands_lead_entities (s : str) : bool :=
  match s with
  | [] => true
  | c :: tl =>
      (if (AMP =? c)%N then existsb (fun e => startswith e tl) entity_tails
       else true)
      && ampersands_lead_entities tl
  end.


(** [kw] occurs in [text]. *)
Definition occurs_in (kw text : str) : Prop :=
  exists pre post, text = pre ++ kw ++ post.

(** Some keyword of the set occurs in the lower-cased query: the
    case-insensitive substring match. *)
Definition keyword_match (keywords : list str) (query : str) : Prop :=
  exists kw, In kw keywords /\ occurs_in kw (str_lower query).

(** The shape of what [pat_symbol] matches: one ASCII letter, or a letter,
    an underscore and one ASCII letter or digit. *)
Definition symbol_token (tok : str) : bool :=
  match tok with
  | [a] => ascii_letter a
  | [a; b; c] =>
      ascii_letter a && (b =? 95)%N && (ascii_digit c || ascii_letter c)
  | _ => false
  end.

(** [pre] is where the first copy of [tok] starts in [text]. *)
Definition first_occurrence (tok pre post text : str) : Prop :=
  text = pre ++ tok ++ post
  /\ forall pre' post', text = pre' ++ tok ++ post' -> length pre <= length pre'.

(** One replacement of the loop, told declaratively: the first copy of the
    token gets the symbol wrapper; a text without a copy stays as it is. *)
Inductive wraps_first (text tok : str) : str -> Prop :=
| wraps_at (pre post : str) :
    first_occurrence tok pre post text ->
    wraps_first text tok (pre ++ symbol_span tok ++ post)
| wraps_nothing :
    ~ occurs_in tok text ->
    wraps_first text tok text.

(** The loop over the scan's matches, told declaratively: a stopword is
    passed over, every other match makes one replacement on the text the
    previous turns left. *)
Inductive highlight_run : list str -> str -> str -> Prop :=
| run_done (text : str) : highlight_run [] text text
| run_stopword (tok : str) (toks : list str) (text text' : str) :
    In tok stopwords ->
    highlight_run toks text text' ->
    highlight_run (tok :: toks) text text'
| run_wrap (tok : str) (toks : list str) (text text1 text' : str) :
    ~ In tok stopwords ->
    wraps_first text tok text1 ->
    highlight_run toks text1 text' ->
    highlight_run (tok :: toks) text text'.

(** The distinct tokens of a scan, each at its first match. *)
Fixpoint distinct_from (seen toks : list str) : list str :=
  match toks with
  | [] => []
  | tok :: rest =>
      if list_in tok seen then distinct_from seen rest
      else tok :: distinct_from (tok :: seen) rest
  end.

(** The final pass as the specification words it: one replacement for each
    distinct token of the scan, at its first occurrence. *)
Definition highlight_symbols_spec (text : str) : str :=
  fold_left highlight_step (distinct_from [] (finditer pat_symbol text)) text.

(** Sample inputs: a model client that always fails, one that always
    answers, and six calls for a history of five. *)
Definition failing_world : World :=
  {| generate_content := fun _ => None; entropy := 3 |}.

Definition answering_world : World :=
  {| generate_content := fun _ => Some (u "E = m*c**2 for <b>mass</b> & 'energy'");
     entropy := 0 |}.

Definition six_calls : list (str * str) :=
  [ (u "q1", u "r1"); (u "q2", u "r2"); (u "q3", u "r3");
    (u "q4", u "r4"); (u "q5", u "r5"); (u "q6", u "r6") ].

(* ================================================================== *)
(** * Runs of the handler and further vocabulary *)
(* ================================================================== *)



(** The three values [difficulty_level] is meant to take. *)
Definition difficulty_levels : list str :=
  [u "beginner"; u "intermediate"; u "advanced"].

(** A body whose decoded value has no [get], or whose [query] entry has no
    [lower]. *)
Definition malformed (data : json) : Prop :=
  match data with
  | JObject members =>
      forall s, dict_get members (u "query") (JString []) <> JString s
  | _ => True
  end.

(** The five code points the escaping chain rewrites. *)
Definition html_special (c : codepoint) : bool :=
  ((AMP =? c) || (LT =? c) || (GT =? c) || (DQUOTE =? c) || (APOS =? c))%N.

Definition STAR : codepoint := 42%N.

(** Every code point the formatter can insert: the caret and the
    multiplication sign of its first two steps, the newline of the final
    join, and the code points of its four wrappers. *)
Definition markup_alphabet : str :=
  u "^" ++ [215%N; NL]
  ++ open_tag (u "div") (u "equation") ++ close_tag (u "div")
  ++ open_tag (u "span") (u "math-expression") ++ close_tag (u "span")
  ++ open_tag (u "div") (u "solution-step")
  ++ open_tag (u "span") (u "symbol").

(** The number of newlines a text starts with. *)
Fixpoint leading_newlines (s : str) : nat :=
  match s with
  | c :: tl => if (c =? NL)%N then S (leading_newlines tl) else 0
  | [] => 0
  end.

(** The first step of [sanitize_response] on its own. *)
Definition collapse_newlines (text : str) : str :=
  sub pat_newlines (fun _ => [NL; NL]) text.

(** [format_solution]: the prefixes that make a step a heading, the
    characters that make a line an equation, one line of an ordinary
    step, what the loop appends for the step at index [i], and the loop. *)
Definition heading_prefixes : list str :=
  [u "step "; u "therefore"; u "hence"; u "thus"; u "final"].

Definition operator_chars : str := u "=+-×÷*/".

Definition format_line (line : str) : str :=
  if existsb (fun char => str_in [char] line) operator_chars
  then u "```math" ++ [NL] ++ strip line ++ [NL] ++ u "```"
  else strip line.

Definition format_step (i : nat) (step : str) : list str :=
  if (i =? 0) && startswith (u "solution:") (str_lower step)
  then [u "**" ++ strip step ++ u "**" ++ [NL]]
  else if truthy (strip step) then
    if existsb (fun prefix => startswith prefix (str_lower step)) heading_prefixes
    then [[NL] ++ u "**" ++ strip step ++ u "**" ++ [NL]]
    else [str_join [NL] (map format_line (str_split step [NL]))]
  else [].

Fixpoint format_steps (i : nat) (steps : list str) : list str :=
  match steps with
  | [] => []
  | step :: rest => format_step i step ++ format_steps (S i) rest
  end.

Definition format_solution (text : str) : str :=
  str_join [NL; NL] (format_steps 0 (str_split text [NL; NL])).

(** The code points [format_solution] can insert. *)
Definition solution_alphabet : str := u "*`math" ++ [NL].

(** A pattern that cannot start at a code point of class [P]. *)
Definition rejects (P : codepoint -> bool) (p : pattern) : Prop :=
  forall bol c tl, P c = true -> p bol (c :: tl) = None.

Definition DOLLAR : codepoint := 36%N.

(** A text on which the clean-up steps of [sanitize_response] find nothing
    to do: one line, no dollar sign, not opening with [Step] or
    [Conclusion:], no white space at either end. *)
Definition plain_line (text : str) : bool :=
  forallb (fun c => negb (NL =? c)%N && negb (DOLLAR =? c)%N) text
  && negb (startswith (u "Step") text)
  && negb (startswith (u "Conclusion:") text)
  && str_eqb (strip text) text.

(* ================================================================== *)
(** * Properties of the string operations *)
(* ================================================================== *)

Lemma startswith_app (p r : str) : startswith p (p ++ r) = true.
Proof.
  induction p as [|a p IH]; simpl; [reflexivity|].
  now rewrite N.eqb_refl.
Qed.

Lemma startswith_inv (p t : str) :
  startswith p t = true -> exists r, t = p ++ r.
Proof.
  revert t; induction p as [|a p IH]; intros t H.
  - now exists t.
  - destruct t as [|b t]; simpl in H; [discriminate|].
    apply andb_true_iff in H as [Hab Hp].
    apply N.eqb_eq in Hab; subst b.
    destruct (IH _ Hp) as [r ->]. now exists r.
Qed.

Lemma str_in_startswith (x s : str) :
  startswith x s = true -> str_in x s = true.
Proof.
  intros H. destruct s; simpl; now rewrite H.
Qed.

(** [x in s] holds exactly when [s] splits around a copy of [x]. *)
Lemma str_in_spec (x s : str) :
  str_in x s = true <-> exists pre post, s = pre ++ x ++ post.
Proof.
  split.
  - induction s as [|c s IH]; simpl; intros H.
    + rewrite orb_false_r in H. destruct x; [|discriminate].
      now exists [], [].
    + apply orb_true_iff in H as [H|H].
      * destruct (startswith_inv _ _ H) as [r Hr]. now exists [], r.
      * destruct (IH H) as (pre & post & ->). now exists (c :: pre), post.
  - intros (pre & post & ->).
    induction pre as [|c pre IH]; simpl.
    + apply str_in_startswith, startswith_app.
    + rewrite IH. apply orb_true_r.
Qed.

(** Replacing a one-character pattern is a character-wise map. *)
Lemma str_replace_char (text : str) (c : codepoint) (new : str) :
  str_replace text [c] new
  = flat_map (fun x => if (c =? x)%N then new else [x]) text.
Proof.
  unfold str_replace.
  induction text as [|a text IH]; simpl; [reflexivity|].
  rewrite andb_true_r.
  destruct (c =? a)%N; simpl; now rewrite IH.
Qed.

Lemma flat_map_fuse {A B C : Type} (f : A -> list B) (g : B -> list C) l :
  flat_map g (flat_map f l) = flat_map (fun x => flat_map g (f x)) l.
Proof.
  induction l as [|a l IH]; simpl; [reflexivity|].
  now rewrite flat_map_app, IH.
Qed.

Lemma escape_html_char_wise (text : str) :
  escape_html text = flat_map escape_char text.
Proof.
  unfold escape_html.
  change (u "&") with [AMP]; change (u "<") with [LT];
    change (u ">") with [GT]; change (u "'") with [APOS].
  rewrite !str_replace_char, !flat_map_fuse.
  apply flat_map_ext; intros x. unfold escape_char.
  destruct (AMP =? x)%N eqn:E1; [reflexivity|].
  cbn [flat_map app]. rewrite !app_nil_r.
  destruct (LT =? x)%N eqn:E2; [reflexivity|].
  cbn [flat_map app]. rewrite !app_nil_r.
  destruct (GT =? x)%N eqn:E3; [reflexivity|].
  cbn [flat_map app]. rewrite !app_nil_r.
  destruct (DQUOTE =? x)%N eqn:E4; [reflexivity|].
  cbn [flat_map app]. rewrite !app_nil_r.
  destruct (APOS =? x)%N eqn:E5; reflexivity.
Qed.

Lemma escape_char_no_markup (x c : codepoint) :
  In c (escape_char x) -> c <> LT /\ c <> GT /\ c <> DQUOTE /\ c <> APOS.
Proof.
  unfold escape_char.
  destruct (AMP =? x)%N eqn:E1;
    [|destruct (LT =? x)%N eqn:E2;
      [|destruct (GT =? x)%N eqn:E3;
        [|destruct (DQUOTE =? x)%N eqn:E4;
          [|destruct (APOS =? x)%N eqn:E5]]]];
    intros H.
  1-5: vm_compute in H;
    repeat (destruct H as [H|H]; [subst c; repeat split; discriminate|]);
    contradiction.
  destruct H as [H|[]]; subst c.
  apply N.eqb_neq in E2, E3, E4, E5.
  repeat split; congruence.
Qed.

Lemma escaped_ampersands (text : str) :
  ampersands_lead_entities (flat_map escape_char text) = true.
Proof.
  induction text as [|x text IH]; [reflexivity|].
  cbn [flat_map]. unfold escape_char at 1.
  destruct (AMP =? x)%N eqn:E1;
    [|destruct (LT =? x)%N eqn:E2;
      [|destruct (GT =? x)%N eqn:E3;
        [|destruct (DQUOTE =? x)%N eqn:E4;
          [|destruct (APOS =? x)%N eqn:E5]]]].
  1-5: vm_compute (u _); vm_compute entity_tails;
    cbn -[flat_map escape_char]; exact IH.
  cbn [app ampersands_lead_entities]. now rewrite E1, IH.
Qed.

Lemma ampersands_lead_entities_spec (s : str) :
  ampersands_lead_entities s = true ->
  forall pre post, s = pre ++ AMP :: post ->
    exists e, In e entity_tails /\ startswith e post = true.
Proof.
  intros H pre; revert s H.
  induction pre as [|c pre IH]; intros s H post ->;
    cbn [app ampersands_lead_entities] in H;
    apply andb_true_iff in H as [H1 H2].
  - rewrite N.eqb_refl in H1. apply existsb_exists in H1. exact H1.
  - eapply IH; eauto.
Qed.

(** The output of [sanitize_response] is the character-wise escaping of
    the text its clean-up steps produce. *)
Lemma sanitize_response_char_wise (text : str) :
  exists cleaned,
    sanitize_response text = escape_html cleaned
    /\ sanitize_response text = flat_map escape_char cleaned.
Proof.
  unfold sanitize_response.
  match goal with |- context [escape_html ?t] => exists t end.
  split; [reflexivity | apply escape_html_char_wise].
Qed.

Lemma sanitize_response_no_markup (text : str) (c : codepoint) :
  In c (sanitize_response text) ->
  c <> LT /\ c <> GT /\ c <> DQUOTE /\ c <> APOS.
Proof.
  destruct (sanitize_response_char_wise text) as (cleaned & _ & ->).
  intros H. apply in_flat_map in H as (x & _ & H).
  eapply escape_char_no_markup; eauto.
Qed.

(* ================================================================== *)
(** * The rolling history *)
(* ================================================================== *)

(** One call on a context within its bound: it succeeds, keeps the bound,
    and the history is the old one with the new pair appended, cut at the
    front to the bound. *)
Lemma add_interaction_step (self : ConversationContext) (q r : str) :
  (1 <= max_history self)%Z ->
  (Z.of_nat (length (history self)) <= max_history self)%Z ->
  exists self',
    add_interaction self q r = Ok self'
    /\ max_history self' = max_history self
    /\ history self'
       = skipn (S (length (history self)) - Z.to_nat (max_history self))
           (history self ++ [interaction_of (q, r)]).
Proof.
  intros Hmax Hlen. unfold add_interaction.
  destruct (Z.geb_spec (Z.of_nat (length (history self))) (max_history self))
    as [Hge|Hlt].
  - destruct (history self) as [|x t] eqn:Eh; cbn [length] in *; [lia|].
    cbn [list_pop0 bind]. eexists; split; [reflexivity|]. split; [reflexivity|].
    replace (S (S (length t)) - Z.to_nat (max_history self)) with 1 by lia.
    reflexivity.
  - cbn [bind]. eexists; split; [reflexivity|]. split; [reflexivity|].
    replace (S (length (history self)) - Z.to_nat (max_history self)) with 0
      by lia.
    reflexivity.
Qed.

(** A sequence of calls from a context within its bound [N >= 1]: every
    call succeeds and the final history is the last [N] entries of the old
    history followed by the new pairs. *)
Lemma add_interactions_run (N : Z) (calls : list (str * str)) :
  (1 <= N)%Z ->
  forall self,
    max_history self = N ->
    (Z.of_nat (length (history self)) <= N)%Z ->
    exists self',
      add_interactions self calls = Ok self'
      /\ max_history self' = N
      /\ history self'
         = skipn (length (history self) + length calls - Z.to_nat N)
             (history self ++ map interaction_of calls).
Proof.
  intros HN. induction calls as [|[q r] rest IH]; intros self Hmax Hlen.
  - exists self. split; [reflexivity|]. split; [assumption|].
    cbn [map length]. rewrite app_nil_r.
    replace (length (history self) + 0 - Z.to_nat N) with 0 by lia.
    reflexivity.
  - destruct (add_interaction_step self q r) as (s1 & E1 & M1 & H1);
      [lia | lia |].
    rewrite Hmax in M1, H1.
    assert (L1 : length (history s1)
                 = S (length (history self))
                   - (S (length (history self)) - Z.to_nat N)).
    { rewrite H1, length_skipn, length_app. cbn [length]. lia. }
    destruct (IH s1 M1) as (s2 & E2 & M2 & H2); [lia|].
    exists s2. cbn [add_interactions fst snd]. rewrite E1. cbn [bind].
    split; [exact E2|]. split; [exact M2|].
    rewrite H2, L1, H1. cbn [map length].
    set (L := history self ++ [interaction_of (q, r)]).
    set (k := S (length (history self)) - Z.to_nat N).
    set (M := map interaction_of rest).
    assert (Lk : k - length L = 0).
    { subst L k. rewrite length_app. cbn [length]. lia. }
    replace (skipn k L ++ M) with (skipn k (L ++ M))
      by (now rewrite skipn_app, Lk).
    rewrite skipn_skipn.
    replace (history self ++ interaction_of (q, r) :: M) with (L ++ M)
      by (subst L; now rewrite <- app_assoc).
    f_equal. subst k. lia.
Qed.

(** C2. On a context created with [max_history = N >= 1]: every sequence
    of [add_interaction] calls succeeds and leaves at most [N] entries,
    namely the last [N] pairs added, in order; a call on a full history
    drops the oldest entry and appends the new pair; after [N + 1] calls
    exactly [N] entries remain, the first pair added being the one gone. *)
Theorem history_bounded_fifo (N : Z) (HN : (1 <= N)%Z) :
  (forall calls, exists self',
      add_interactions (ConversationContext_init N) calls = Ok self'
      /\ (Z.of_nat (length (history self')) <= N)%Z
      /\ history self'
         = skipn (length calls - Z.to_nat N) (map interaction_of calls))
  /\ (forall self q r,
      max_history self = N ->
      length (history self) = Z.to_nat N ->
      add_interaction self q r
      = Ok (set_history self (tl (history self) ++ [interaction_of (q, r)])))
  /\ (forall calls,
      length calls = S (Z.to_nat N) ->
      exists self',
        add_interactions (ConversationContext_init N) calls = Ok self'
        /\ length (history self') = Z.to_nat N
        /\ history self' = tl (map interaction_of calls)).
Proof.
  assert (run : forall calls, exists self',
      add_interactions (ConversationContext_init N) calls = Ok self'
      /\ history self'
         = skipn (length calls - Z.to_nat N) (map interaction_of calls)).
  { intros calls.
    destruct (add_interactions_run N calls HN (ConversationContext_init N))
      as (s & E & _ & H); [reflexivity | cbn; lia |].
    exists s. split; [exact E|]. exact H. }
  split; [|split].
  - intros calls. destruct (run calls) as (s & E & H).
    exists s. split; [exact E|]. split; [|exact H].
    rewrite H, length_skipn, length_map. lia.
  - intros self q r Hmax Hlen. unfold add_interaction.
    destruct (Z.geb_spec (Z.of_nat (length (history self))) (max_history self));
      [|lia].
    destruct (history self) as [|x t]; cbn [length] in Hlen; [lia|].
    reflexivity.
  - intros calls Hlen. destruct (run calls) as (s & E & H).
    exists s. split; [exact E|].
    rewrite H, Hlen.
    replace (S (Z.to_nat N) - Z.to_nat N) with 1 by lia.
    destruct calls as [|c calls]; [discriminate|].
    cbn [map skipn tl length] in *. rewrite length_map. split; [lia|reflexivity].
Qed.

(* ================================================================== *)
(** * The patterns never match the empty string *)
(* ================================================================== *)

Lemma re_lit_consumes (s : str) (k : cont) (t : str) :
  s <> [] -> re_lit s k t <> Some 0.
Proof.
  intros Hs. unfold re_lit.
  destruct (startswith s t); [|discriminate].
  destruct (k (skipn (length s) t)) as [n|]; cbn [option_map]; [|discriminate].
  destruct s; [contradiction|]. cbn [length Nat.add]. discriminate.
Qed.

Lemma re_cls_consumes (p : codepoint -> bool) (k : cont) (t : str) :
  re_cls p k t <> Some 0.
Proof.
  unfold re_cls. destruct t as [|c t]; [discriminate|].
  destruct (p c); [|discriminate].
  destruct (k t); cbn [option_map]; discriminate.
Qed.

(** The searches [finditer_from] and [sub_from] step past a match by its
    length; each pattern of the program consumes at least one code point. *)
Lemma program_patterns_consume (p : pattern) :
  In p [pat_double_star; pat_star; pat_block_math; pat_inline_math;
        pat_symbol; pat_newlines; pat_conclusion; pat_step] ->
  forall bol t, p bol t <> Some 0.
Proof.
  intros H bol t.
  repeat (destruct H as [<-|H]); try contradiction;
    unfold pat_double_star, pat_star, pat_block_math, pat_inline_math,
      pat_symbol, pat_newlines, pat_conclusion, pat_step,
      unanchored, anchored_bol, re_alt.
  1-4, 6: apply re_lit_consumes; discriminate.
  - destruct (re_cls ascii_letter _ t) as [n|] eqn:E.
    + intros E0. injection E0 as ->. now apply re_cls_consumes in E.
    + apply re_cls_consumes.
  - destruct bol; [apply re_lit_consumes|]; discriminate.
  - destruct bol; [apply re_lit_consumes|]; discriminate.
Qed.

(* ================================================================== *)
(** * Keyword matching: topic and difficulty *)
(* ================================================================== *)

Lemma any_keyword_in_spec (keywords : list str) (query : str) :
  any_keyword_in keywords query = true <-> keyword_match keywords query.
Proof.
  unfold any_keyword_in, keyword_match, occurs_in.
  rewrite existsb_exists.
  split; intros (kw & Hin & H); exists kw; (split; [exact Hin|]);
    now apply str_in_spec.
Qed.

Lemma any_keyword_in_false (keywords : list str) (query : str) :
  ~ keyword_match keywords query -> any_keyword_in keywords query = false.
Proof.
  intros H. destruct (any_keyword_in keywords query) eqn:E; [|reflexivity].
  now apply any_keyword_in_spec in E.
Qed.

(** On an ASCII query the test is the one on the ASCII lower-casing. *)
Lemma any_keyword_in_ascii (keywords : list str) (query : str) :
  forallb is_ascii query = true ->
  any_keyword_in keywords query
  = existsb (fun keyword => str_in keyword (lower_ascii_text query)) keywords.
Proof.
  intros H. unfold any_keyword_in. now rewrite (str_lower_ascii _ H).
Qed.

Lemma detect_topic_items_first (items : list (str * list str))
  (self : ConversationContext) (query : str) :
  forall before topic keywords after,
    items = before ++ (topic, keywords) :: after ->
    (forall t k, In (t, k) before -> ~ keyword_match k query) ->
    keyword_match keywords query ->
    detect_topic_items items self query
    = (Some topic, set_current_topic self (Some topic)).
Proof.
  intros before; revert items.
  induction before as [|[t k] before IH]; intros items topic kws after -> Hno Hyes;
    cbn [app detect_topic_items].
  - apply any_keyword_in_spec in Hyes. now rewrite Hyes.
  - rewrite any_keyword_in_false by (apply (Hno t k); now left).
    eapply IH; eauto. intros t' k' Hin. apply (Hno t' k'). now right.
Qed.

Lemma detect_topic_items_none (items : list (str * list str))
  (self : ConversationContext) (query : str) :
  (forall t k, In (t, k) items -> ~ keyword_match k query) ->
  detect_topic_items items self query = (None, self).
Proof.
  induction items as [|[t k] items IH]; intros Hno; cbn [detect_topic_items].
  - reflexivity.
  - rewrite any_keyword_in_false by (apply (Hno t k); now left).
    apply IH. intros t' k' Hin. apply (Hno t' k'). now right.
Qed.

(** C6. [detect_topic] walks the five keyword sets in the order
    mathematics, science, language, history, technology; it returns the
    first topic one of whose keywords occurs in the lower-cased query, and
    after the call [current_topic] holds that topic while the history, the
    bound and the difficulty level are as before; when no keyword occurs
    it returns no topic and leaves the context, [current_topic] included,
    as it was.  The two sample queries give mathematics (stored in
    [current_topic]) and no topic. *)
Theorem detect_topic_first_match :
  map fst topics
  = [u "mathematics"; u "science"; u "language"; u "history"; u "technology"]
  /\ (forall self query before topic keywords after,
        topics = before ++ (topic, keywords) :: after ->
        (forall t k, In (t, k) before -> ~ keyword_match k query) ->
        keyword_match keywords query ->
        fst (detect_topic self query) = Some topic
        /\ current_topic (snd (detect_topic self query)) = Some topic
        /\ history (snd (detect_topic self query)) = history self
        /\ max_history (snd (detect_topic self query)) = max_history self
        /\ difficulty_level (snd (detect_topic self query))
           = difficulty_level self)
  /\ (forall self query,
        (forall t k, In (t, k) topics -> ~ keyword_match k query) ->
        detect_topic self query = (None, self))
  /\ (forall self,
        fst (detect_topic self (u "I need help with calculus"))
        = Some (u "mathematics")
        /\ current_topic (snd (detect_topic self (u "I need help with calculus")))
           = Some (u "mathematics"))
  /\ (forall self, detect_topic self (u "good morning") = (None, self)).
Proof.
  split; [reflexivity|].
  split.
  { intros self query before topic keywords after Ht Hno Hyes.
    unfold detect_topic.
    rewrite (detect_topic_items_first topics self query before topic keywords
               after Ht Hno Hyes).
    repeat split. }
  split; [intros; now apply detect_topic_items_none|].
  split; intros self; unfold detect_topic, topics;
    cbn [detect_topic_items];
    rewrite !any_keyword_in_ascii by (vm_compute; reflexivity).
  - vm_compute. split; reflexivity.
  - vm_compute. reflexivity.
Qed.

Lemma adjust_difficulty_items_first (items : list (str * list str))
  (self : ConversationContext) (query : str) :
  forall before level indicators after,
    items = before ++ (level, indicators) :: after ->
    (forall l k, In (l, k) before -> ~ keyword_match k query) ->
    keyword_match indicators query ->
    adjust_difficulty_items items self query = set_difficulty_level self level.
Proof.
  intros before; revert items.
  induction before as [|[l k] before IH]; intros items level ind after -> Hno Hyes;
    cbn [app adjust_difficulty_items].
  - apply any_keyword_in_spec in Hyes. now rewrite Hyes.
  - rewrite any_keyword_in_false by (apply (Hno l k); now left).
    eapply IH; eauto. intros l' k' Hin. apply (Hno l' k'). now right.
Qed.

Lemma adjust_difficulty_items_none (items : list (str * list str))
  (self : ConversationContext) (query : str) :
  (forall l k, In (l, k) items -> ~ keyword_match k query) ->
  adjust_difficulty_items items self query = self.
Proof.
  induction items as [|[l k] items IH]; intros Hno;
    cbn [adjust_difficulty_items].
  - reflexivity.
  - rewrite any_keyword_in_false by (apply (Hno l k); now left).
    apply IH. intros l' k' Hin. apply (Hno l' k'). now right.
Qed.

(** C7. [adjust_difficulty] checks the advanced indicators, then the
    beginner ones; the first set with an indicator occurring in the
    lower-cased query ends the check, and after the call
    [difficulty_level] holds the level of that set while the history, the
    bound and the topic are as before; with no indicator occurring the
    context, [difficulty_level] included, is left as it was.  After the two
    sample queries the level is beginner and advanced, whatever it was
    before. *)
Theorem adjust_difficulty_first_match :
  map fst complexity_indicators = [u "advanced"; u "beginner"]
  /\ (forall self query before level indicators after,
        complexity_indicators = before ++ (level, indicators) :: after ->
        (forall l k, In (l, k) before -> ~ keyword_match k query) ->
        keyword_match indicators query ->
        difficulty_level (adjust_difficulty self query) = level
        /\ history (adjust_difficulty self query) = history self
        /\ max_history (adjust_difficulty self query) = max_history self
        /\ current_topic (adjust_difficulty self query) = current_topic self)
  /\ (forall self query,
        (forall l k, In (l, k) complexity_indicators -> ~ keyword_match k query) ->
        adjust_difficulty self query = self)
  /\ (forall self,
        difficulty_level (adjust_difficulty self (u "explain what is gravity"))
        = u "beginner")
  /\ (forall self,
        difficulty_level (adjust_difficulty self (u "prove the derivation"))
        = u "advanced").
Proof.
  split; [reflexivity|].
  split.
  { intros self query before level indicators after Hi Hno Hyes.
    unfold adjust_difficulty.
    rewrite (adjust_difficulty_items_first complexity_indicators self query
               before level indicators after Hi Hno Hyes).
    repeat split. }
  split; [intros; now apply adjust_difficulty_items_none|].
  split; intros self; unfold adjust_difficulty, complexity_indicators;
    cbn [adjust_difficulty_items];
    rewrite !any_keyword_in_ascii by (vm_compute; reflexivity).
  - vm_compute. reflexivity.
  - vm_compute. reflexivity.
Qed.

(* ================================================================== *)
(** * The response generator and the query handler *)
(* ================================================================== *)

Lemma existsb_eqb_In (c : codepoint) (s : str) :
  existsb (N.eqb c) s = true -> In c s.
Proof.
  intros H. apply existsb_exists in H as (x & Hin & Hx).
  apply N.eqb_eq in Hx. now subst x.
Qed.

(** The formatted passage carries the formatter's own markup, unescaped. *)
Lemma canned_markup_literal :
  existsb (N.eqb LT) (format_mathematical_notation canned_response) = true.
Proof. vm_compute. reflexivity. Qed.

Lemma sanitize_response_no_lt (text : str) : ~ In LT (sanitize_response text).
Proof.
  intros H.
  destruct (sanitize_response_no_markup text LT H) as [Hlt _]. now apply Hlt.
Qed.

(** C4. A query whose lower-casing contains one of the five trigger words
    gets the fixed passage run through [format_mathematical_notation]
    alone: the result depends on nothing else (not on the query, the
    context or the model), and it is no output of [sanitize_response],
    since the formatter's markup reaches the caller unescaped. *)
Theorem trigger_word_returns_canned (w : World) (ctx : ConversationContext)
  (query : str) (Htrigger : keyword_match trigger_words query) :
  trigger_words
  = [u "dimension"; u "dimensional analysis"; u "viscosity"; u "prove";
     u "derivation"]
  /\ generate_response_with_context w ctx query
     = Ok (format_mathematical_notation canned_response)
  /\ In LT (format_mathematical_notation canned_response)
  /\ (forall text,
        format_mathematical_notation canned_response <> sanitize_response text).
Proof.
  split; [reflexivity|].
  split.
  - unfold generate_response_with_context.
    apply any_keyword_in_spec in Htrigger. now rewrite Htrigger.
  - split; [apply existsb_eqb_In, canned_markup_literal|].
    intros text E. apply (sanitize_response_no_lt text).
    rewrite <- E. apply existsb_eqb_In, canned_markup_literal.
Qed.

Lemma generate_emoji_total (rnd : nat) :
  exists emoji, generate_emoji rnd = Ok emoji /\ In emoji emojis.
Proof.
  unfold generate_emoji, random_choice.
  destruct (nth_error emojis (rnd mod length emojis)) as [e|] eqn:E.
  - exists e. split; [reflexivity|]. eapply nth_error_In; eauto.
  - apply nth_error_None in E.
    pose proof (Nat.mod_upper_bound rnd (length emojis)) as Hlt.
    cbn [length emojis] in *. lia.
Qed.

Lemma generate_on_failure (w : World) (ctx : ConversationContext) (query : str) :
  ~ keyword_match trigger_words query ->
  generate_content w (context_prompt query (length (history ctx))) = None ->
  exists emoji,
    In emoji emojis
    /\ generate_response_with_context w ctx query = Ok (apology ++ emoji).
Proof.
  intros Hplain Hfail.
  destruct (generate_emoji_total (entropy w)) as (emoji & E & Hin).
  exists emoji. split; [exact Hin|].
  unfold generate_response_with_context.
  rewrite (any_keyword_in_false _ _ Hplain), Hfail, E. reflexivity.
Qed.


Lemma apology_apostrophe (emoji : str) : In APOS (apology ++ emoji).
Proof.
  apply in_or_app. left. apply existsb_eqb_In. vm_compute. reflexivity.
Qed.

Lemma keyword_match_dec (keywords : list str) (query : str) :
  keyword_match keywords query \/ ~ keyword_match keywords query.
Proof.
  destruct (any_keyword_in keywords query) eqn:E.
  - left. now apply any_keyword_in_spec.
  - right. intros H. apply any_keyword_in_spec in H. congruence.
Qed.

(** C3, as the code has it. The generator has three return paths and the
    returned text is an output of [sanitize_response] on exactly one of
    them.  With no trigger word and an answering model client the result
    is [sanitize_response] of the formatted answer, free of literal
    less-than, greater-than, double quote and apostrophe.  With a trigger
    word the result is the formatted passage, which holds a literal
    less-than sign; with no trigger word and a failing client it is the
    apology followed by one of the emoji, which holds a literal
    apostrophe; neither is an output of [sanitize_response]. *)
Theorem sanitized_on_model_answer_only (w : World) (ctx : ConversationContext)
  (query : str) :
  (keyword_match trigger_words query ->
     generate_response_with_context w ctx query
     = Ok (format_mathematical_notation canned_response)
     /\ In LT (format_mathematical_notation canned_response)
     /\ (forall t,
           format_mathematical_notation canned_response <> sanitize_response t))
  /\ (~ keyword_match trigger_words query ->
      forall text,
        generate_content w (context_prompt query (length (history ctx)))
        = Some text ->
        generate_response_with_context w ctx query
        = Ok (sanitize_response (format_mathematical_notation text))
        /\ (forall c,
              In c (sanitize_response (format_mathematical_notation text)) ->
              c <> LT /\ c <> GT /\ c <> DQUOTE /\ c <> APOS))
  /\ (~ keyword_match trigger_words query ->
      generate_content w (context_prompt query (length (history ctx))) = None ->
      exists emoji,
        In emoji emojis
        /\ generate_response_with_context w ctx query = Ok (apology ++ emoji)
        /\ In APOS (apology ++ emoji)
        /\ (forall t, apology ++ emoji <> sanitize_response t))
  /\ ((exists t, generate_response_with_context w ctx query
                 = Ok (sanitize_response t))
      <-> (~ keyword_match trigger_words query
           /\ exists text,
               generate_content w (context_prompt query (length (history ctx)))
               = Some text)).
Proof.
  assert (Hcanned :
    keyword_match trigger_words query ->
    generate_response_with_context w ctx query
    = Ok (format_mathematical_notation canned_response)
    /\ In LT (format_mathematical_notation canned_response)
    /\ (forall t,
          format_mathematical_notation canned_response <> sanitize_response t)).
  { intros Htrigger. split.
    - unfold generate_response_with_context.
      apply any_keyword_in_spec in Htrigger. now rewrite Htrigger.
    - split; [apply existsb_eqb_In, canned_markup_literal|].
      intros t E. apply (sanitize_response_no_lt t).
      rewrite <- E. apply existsb_eqb_In, canned_markup_literal. }
  assert (Hanswer :
    ~ keyword_match trigger_words query ->
    forall text,
      generate_content w (context_prompt query (length (history ctx)))
      = Some text ->
      generate_response_with_context w ctx query
      = Ok (sanitize_response (format_mathematical_notation text))).
  { intros Hplain text E. unfold generate_response_with_context.
    now rewrite (any_keyword_in_false _ _ Hplain), E. }
  assert (Hfail :
    ~ keyword_match trigger_words query ->
    generate_content w (context_prompt query (length (history ctx))) = None ->
    exists emoji,
      In emoji emojis
      /\ generate_response_with_context w ctx query = Ok (apology ++ emoji)
      /\ In APOS (apology ++ emoji)
      /\ (forall t, apology ++ emoji <> sanitize_response t)).
  { intros Hplain E.
    destruct (generate_on_failure w ctx query Hplain E) as (emoji & Hin & Eg).
    exists emoji. split; [exact Hin|]. split; [exact Eg|].
    split; [apply apology_apostrophe|].
    intros t Et.
    destruct (sanitize_response_no_markup t APOS) as (_ & _ & _ & Hap).
    - rewrite <- Et. apply apology_apostrophe.
    - now apply Hap. }
  split; [exact Hcanned|]. split.
  { intros Hplain text E. split; [now apply Hanswer|].
    intros c. apply sanitize_response_no_markup. }
  split; [exact Hfail|].
  split.
  - intros (t & Et).
    destruct (keyword_match_dec trigger_words query) as [Htrigger|Hplain].
    + destruct (Hcanned Htrigger) as (Eg & _ & Hno).
      rewrite Eg in Et. injection Et as Et. now apply Hno in Et.
    + split; [exact Hplain|].
      destruct (generate_content w
                  (context_prompt query (length (history ctx)))) as [text|] eqn:E.
      * now exists text.
      * destruct (Hfail Hplain eq_refl) as (emoji & _ & Eg & _ & Hno).
        rewrite Eg in Et. injection Et as Et. now apply Hno in Et.
  - intros (Hplain & text & E).
    exists (format_mathematical_notation text). now apply Hanswer.
Qed.

Lemma add_interaction_history (self self' : ConversationContext) (q r : str) :
  add_interaction self q r = Ok self' ->
  history self'
  = (if (Z.of_nat (length (history self)) >=? max_history self)%Z
     then tl (history self) else history self)
    ++ [{| user_query := q; ai_response := r |}].
Proof.
  unfold add_interaction.
  destruct (Z.of_nat (length (history self)) >=? max_history self)%Z.
  - destruct (history self); cbn [list_pop0 bind tl]; intros E;
      [discriminate|].
    injection E as <-. reflexivity.
  - cbn [bind]. intros E. injection E as <-. reflexivity.
Qed.

(** C10. Every request that [/api/query] answers with success has stored
    exactly one interaction, the query with the text returned, at the end
    of the shared history (the oldest entry giving way on a full history).
    A failed model call is such a request: on a context with room for one
    entry or more the handler answers success with the apology and stores
    that apology as the response. *)
Theorem query_success_records_interaction :
  (forall w body ctx response_text ctx',
      query w body ctx = (Success response_text, ctx') ->
      exists members query_text,
        body = Ok (JObject members)
        /\ dict_get members (u "query") (JString []) = JString query_text
        /\ generate_response_with_context w ctx query_text = Ok response_text
        /\ history ctx'
           = (if (Z.of_nat (length (history ctx)) >=? max_history ctx)%Z
              then tl (history ctx) else history ctx)
             ++ [{| user_query := query_text; ai_response := response_text |}])
  /\ (forall w members ctx query_text,
      dict_get members (u "query") (JString []) = JString query_text ->
      ~ keyword_match trigger_words query_text ->
      generate_content w (context_prompt query_text (length (history ctx)))
      = None ->
      (1 <= max_history ctx)%Z ->
      exists emoji ctx',
        In emoji emojis
        /\ query w (Ok (JObject members)) ctx = (Success (apology ++ emoji), ctx')
        /\ history ctx'
           = (if (Z.of_nat (length (history ctx)) >=? max_history ctx)%Z
              then tl (history ctx) else history ctx)
             ++ [{| user_query := query_text;
                    ai_response := apology ++ emoji |}]).
Proof.
  split.
  - intros w body ctx text ctx' H. unfold query, query_body in H.
    destruct body as [data|e]; cbn [bind] in H; [|discriminate].
    destruct data as [| | | | |members]; try discriminate.
    destruct (dict_get members (u "query") (JString [])) as [| | |q| |] eqn:Eq;
      try discriminate.
    destruct (generate_response_with_context w ctx q) as [r|e] eqn:Eg;
      cbn [bind] in H; [|discriminate].
    destruct (add_interaction ctx q r) as [c1|e] eqn:Ea;
      cbn [bind] in H; [|discriminate].
    injection H as <- <-.
    exists members, q. split; [reflexivity|]. split; [exact Eq|].
    split; [exact Eg|]. now apply add_interaction_history.
  - intros w members ctx q Eq Hplain Hfail Hmax.
    destruct (generate_on_failure w ctx q Hplain Hfail) as (emoji & Hin & Eg).
    assert (Ha : exists ctx', add_interaction ctx q (apology ++ emoji) = Ok ctx').
    { unfold add_interaction.
      destruct (Z.geb_spec (Z.of_nat (length (history ctx))) (max_history ctx)).
      - destruct (history ctx); cbn [length] in *; [lia|].
        cbn [list_pop0 bind]. eauto.
      - cbn [bind]. eauto. }
    destruct Ha as (ctx' & Ea).
    exists emoji, ctx'. split; [exact Hin|]. split.
    + unfold query, query_body. cbn [bind]. rewrite Eq, Eg. cbn [bind].
      rewrite Ea. reflexivity.
    + now apply add_interaction_history.
Qed.

(* ================================================================== *)
(** * The formatter's symbol loop *)
(* ================================================================== *)

Lemma str_eqb_eq (a b : str) : str_eqb a b = true <-> a = b.
Proof.
  revert b; induction a as [|x a IH]; intros [|y b]; cbn [str_eqb];
    try (split; [discriminate|discriminate]); [tauto|].
  rewrite andb_true_iff, N.eqb_eq, IH.
  split; [intros [-> ->]; reflexivity | intros E; injection E; auto].
Qed.

Lemma list_in_In (x : str) (l : list str) : list_in x l = true <-> In x l.
Proof.
  unfold list_in. rewrite existsb_exists. split.
  - intros (y & Hin & E). apply str_eqb_eq in E. now subst y.
  - intros H. exists x. split; [exact H|]. now apply str_eqb_eq.
Qed.

Lemma skipn_length_app {A : Type} (l r : list A) : skipn (length l) (l ++ r) = r.
Proof. induction l; [reflexivity | assumption]. Qed.

(** [replace(old, new, 1)] puts [new] in place of the first copy of [old]. *)
Lemma str_replace1_first (old new pre post text : str) :
  first_occurrence old pre post text ->
  str_replace1 text old new = pre ++ new ++ post.
Proof.
  revert text; induction pre as [|c pre IH]; intros text [-> Hmin].
  - cbn [app]. destruct (old ++ post) as [|a r] eqn:E.
    + destruct old; [|discriminate]. cbn in E. subst post. reflexivity.
    + rewrite <- E. destruct (old ++ post) eqn:E' at 1; cbn [str_replace1];
        rewrite <- ?E', startswith_app, skipn_length_app; reflexivity.
  - cbn [app str_replace1].
    destruct (startswith old (c :: pre ++ old ++ post)) eqn:Es.
    + apply startswith_inv in Es as [r Er].
      specialize (Hmin [] r Er). cbn in Hmin. lia.
    + f_equal. apply IH. split; [reflexivity|].
      intros pre' post' E.
      specialize (Hmin (c :: pre') post'). cbn [app length] in Hmin.
      rewrite E in Hmin. specialize (Hmin eq_refl). lia.
Qed.

(** Without a copy of [old] the text is returned as it is. *)
Lemma str_replace1_absent (old new text : str) :
  str_in old text = false -> str_replace1 text old new = text.
Proof.
  induction text as [|c text IH]; cbn [str_in str_replace1]; intros H;
    apply orb_false_iff in H as [Hs Hr]; rewrite Hs; [reflexivity|].
  now rewrite IH.
Qed.

Lemma first_occurrence_exists (tok text : str) :
  str_in tok text = true ->
  exists pre post, first_occurrence tok pre post text.
Proof.
  induction text as [|c text IH]; cbn [str_in]; intros H.
  - rewrite orb_false_r in H. apply startswith_inv in H as [r Hr].
    exists [], r. split; [exact Hr|]. intros; cbn; lia.
  - destruct (startswith tok (c :: text)) eqn:Es.
    + apply startswith_inv in Es as [r Hr].
      exists [], r. split; [exact Hr|]. intros; cbn; lia.
    + cbn [orb] in H. destruct (IH H) as (pre & post & -> & Hmin).
      exists (c :: pre), post. split; [reflexivity|].
      intros [|c' pre'] post' E.
      * cbn [app] in E. rewrite E, startswith_app in Es. discriminate.
      * cbn [app] in E. injection E as <- E.
        specialize (Hmin pre' post' E). cbn [length]. lia.
Qed.

Lemma highlight_step_wraps (text tok : str) :
  ~ In tok stopwords -> wraps_first text tok (highlight_step text tok).
Proof.
  intros Hstop. unfold highlight_step.
  destruct (list_in tok stopwords) eqn:El;
    [apply list_in_In in El; contradiction|].
  destruct (str_in tok text) eqn:Ein.
  - destruct (first_occurrence_exists _ _ Ein) as (pre & post & Hfirst).
    rewrite (str_replace1_first _ _ _ _ _ Hfirst). now apply wraps_at.
  - rewrite (str_replace1_absent _ _ _ Ein). apply wraps_nothing.
    intros Hocc. apply str_in_spec in Hocc. congruence.
Qed.

Lemma highlight_run_fold (toks : list str) :
  forall text, highlight_run toks text (fold_left highlight_step toks text).
Proof.
  induction toks as [|tok toks IH]; intros text; cbn [fold_left].
  - apply run_done.
  - destruct (list_in tok stopwords) eqn:El.
    + apply run_stopword; [now apply list_in_In|].
      unfold highlight_step at 2. rewrite El. apply IH.
    + assert (Hstop : ~ In tok stopwords).
      { intros H. apply list_in_In in H. congruence. }
      eapply run_wrap; [exact Hstop | apply highlight_step_wraps, Hstop | apply IH].
Qed.

(** What [pat_symbol] matches at a position has the shape of a token. *)
Lemma pat_symbol_token (bol : bool) (t : str) (n : nat) :
  pat_symbol bol t = Some n -> symbol_token (firstn n t) = true.
Proof.
  unfold pat_symbol, unanchored, re_alt, re_cls, re_lit, re_end.
  destruct t as [|a t]; [discriminate|].
  destruct (ascii_letter a) eqn:Ea; [|discriminate].
  change (u "_") with [95%N].
  destruct t as [|b t]; cbn [startswith option_map].
  - intros E; injection E as <-. cbn. now rewrite Ea.
  - destruct (95 =? b)%N eqn:Eb; cbn [andb length skipn option_map].
    + apply N.eqb_eq in Eb; subst b.
      destruct t as [|c t]; cbn [option_map].
      * intros E; injection E as <-. cbn. now rewrite Ea.
      * destruct (ascii_digit c || ascii_letter c) eqn:Ec; cbn [option_map].
        -- intros E; injection E as <-. cbn [firstn symbol_token Nat.add].
           now rewrite Ea, Ec.
        -- intros E; injection E as <-. cbn. now rewrite Ea.
    + intros E; injection E as <-. cbn. now rewrite Ea.
Qed.

Lemma finditer_symbol_tokens (t : str) :
  forall bol skip,
    Forall (fun tok => symbol_token tok = true)
      (finditer_from pat_symbol bol t skip).
Proof.
  induction t as [|c t IH]; intros bol skip; cbn [finditer_from];
    [constructor|].
  destruct skip as [|k]; [|apply IH].
  destruct (pat_symbol bol (c :: t)) as [[|n]|] eqn:E; try apply IH.
  constructor; [|apply IH]. now apply (pat_symbol_token bol).
Qed.

(** The symbol loop, told declaratively: one replacement for each match
    of the scan whose token is not a stopword, in scan order, each on the
    first occurrence of that token in the text as the previous
    replacements left it; the matches are single ASCII letters or letter,
    underscore, letter-or-digit triples. *)
Lemma highlight_symbols_per_match (text : str) :
  highlight_run (finditer pat_symbol text) text (highlight_symbols text)
  /\ Forall (fun tok => symbol_token tok = true) (finditer pat_symbol text).
Proof.
  split.
  - apply highlight_run_fold.
  - apply finditer_symbol_tokens.
Qed.

Lemma str_eqb_neq (a b : str) : str_eqb a b = false -> a <> b.
Proof.
  intros H E. apply str_eqb_eq in E. congruence.
Qed.

(** C9. The formatter is a total function from strings to strings, and it
    is not idempotent: on the one-letter text [x] a second application
    changes the result of the first. *)
Theorem format_not_idempotent :
  (exists s,
      format_mathematical_notation (format_mathematical_notation s)
      <> format_mathematical_notation s)
  /\ (forall s, exists out, format_mathematical_notation s = out).
Proof.
  split.
  - exists (u "x"). apply str_eqb_neq. vm_compute. reflexivity.
  - intros s. eexists. reflexivity.
Qed.

Lemma distinct_from_nodup (toks : list str) :
  forall seen,
    NoDup toks -> (forall tok, In tok toks -> ~ In tok seen) ->
    distinct_from seen toks = toks.
Proof.
  induction toks as [|tok toks IH]; intros seen Hnd Hsep; [reflexivity|].
  cbn [distinct_from]. inversion Hnd as [|? ? Hnotin Hnd']; subst.
  destruct (list_in tok seen) eqn:E.
  - apply list_in_In in E. exfalso. apply (Hsep tok); [now left | exact E].
  - f_equal. apply IH; [exact Hnd'|].
    intros t Ht [<-|Hs]; [contradiction|].
    apply (Hsep t); [now right | exact Hs].
Qed.

(** When no token is matched twice, the loop is the one replacement per
    distinct token that the specification describes. *)
Lemma highlight_symbols_distinct_matches (text : str) :
  NoDup (finditer pat_symbol text) ->
  highlight_symbols text = highlight_symbols_spec text.
Proof.
  intros H. unfold highlight_symbols, highlight_symbols_spec.
  rewrite distinct_from_nodup; [reflexivity | exact H | intros ? _ []].
Qed.

(* ================================================================== *)
(** * Further properties: the context *)
(* ================================================================== *)

(** X1. [add_interaction] raises exactly when there is nothing to pop: the
    history is empty and [max_history] is zero or negative.  The exception
    is [IndexError]; in every other state the call succeeds. *)
Theorem add_interaction_raises_iff (self : ConversationContext) (q r : str) :
  (add_interaction self q r = Raise IndexError
   <-> history self = [] /\ (max_history self <= 0)%Z)
  /\ (forall e, add_interaction self q r = Raise e -> e = IndexError)
  /\ ((history self <> [] \/ (1 <= max_history self)%Z) ->
      exists self', add_interaction self q r = Ok self').
Proof.
  unfold add_interaction.
  destruct (Z.geb_spec (Z.of_nat (length (history self))) (max_history self))
    as [Hge|Hlt];
    destruct (history self) as [|x t] eqn:Eh; cbn [length list_pop0 bind] in *.
  - split; [split; [intros _; split; [reflexivity|lia] | reflexivity]|].
    split; [intros e E; now injection E|].
    intros [H|H]; [contradiction|lia].
  - split; [split; [discriminate | intros [E _]; discriminate]|].
    split; [discriminate|]. intros _. eauto.
  - split; [split; [discriminate | intros [_ H]; lia]|].
    split; [discriminate|]. intros _. eauto.
  - split; [split; [discriminate | intros [E _]; discriminate]|].
    split; [discriminate|]. intros _. eauto.
Qed.

Lemma add_interaction_fields (self self' : ConversationContext) (q r : str) :
  add_interaction self q r = Ok self' ->
  max_history self' = max_history self
  /\ current_topic self' = current_topic self
  /\ difficulty_level self' = difficulty_level self.
Proof.
  unfold add_interaction.
  destruct (Z.of_nat (length (history self)) >=? max_history self)%Z.
  - destruct (history self); cbn [list_pop0 bind]; intros E; [discriminate|].
    injection E as <-. repeat split.
  - cbn [bind]. intros E. injection E as <-. repeat split.
Qed.

(** X2. A successful [add_interaction] touches the history alone: the
    bound, the topic and the difficulty level are as before; the new pair
    is the last entry; the length grows by one below the bound and stays
    as it is from the bound on. *)
Theorem add_interaction_frame (self self' : ConversationContext) (q r : str)
  (Hok : add_interaction self q r = Ok self') :
  max_history self' = max_history self
  /\ current_topic self' = current_topic self
  /\ difficulty_level self' = difficulty_level self
  /\ last (history self') (interaction_of ([], []))
     = {| user_query := q; ai_response := r |}
  /\ length (history self')
     = (if (Z.of_nat (length (history self)) >=? max_history self)%Z
        then length (history self) else S (length (history self))).
Proof.
  destruct (add_interaction_fields _ _ _ _ Hok) as (H1 & H2 & H3).
  pose proof (add_interaction_history _ _ _ _ Hok) as Hh.
  repeat (split; [assumption|]).
  rewrite Hh. split; [apply last_last|].
  rewrite length_app. cbn [length].
  unfold add_interaction in Hok.
  destruct (Z.of_nat (length (history self)) >=? max_history self)%Z.
  - destruct (history self); cbn [list_pop0 bind tl length] in *;
      [discriminate | lia].
  - lia.
Qed.

Lemma detect_topic_items_cases (items : list (str * list str))
  (self : ConversationContext) (query : str) :
  detect_topic_items items self query = (None, self)
  \/ exists topic,
      In topic (map fst items)
      /\ detect_topic_items items self query
         = (Some topic, set_current_topic self (Some topic)).
Proof.
  induction items as [|[t k] items IH]; cbn [detect_topic_items map fst].
  - now left.
  - destruct (any_keyword_in k query).
    + right. exists t. split; [now left | reflexivity].
    + destruct IH as [IH|(topic & Hin & IH)]; [now left|].
      right. exists topic. split; [now right | exact IH].
Qed.

Lemma detect_topic_items_again (items : list (str * list str))
  (self other : ConversationContext) (query : str) :
  fst (detect_topic_items items other query)
  = fst (detect_topic_items items self query).
Proof.
  induction items as [|[t k] items IH]; cbn [detect_topic_items];
    [reflexivity|].
  destruct (any_keyword_in k query); [reflexivity | exact IH].
Qed.

(** X3. [detect_topic] answers with one of the five topic names or with no
    topic.  With a topic, [current_topic] is that topic and the history,
    the bound and the difficulty level are untouched; with none, the
    context is as before.  Asking again with the same query on the
    resulting context gives the same answer and changes nothing more. *)
Theorem detect_topic_range_and_frame (self : ConversationContext) (query : str) :
  let r := fst (detect_topic self query) in
  let self' := snd (detect_topic self query) in
  (r = None /\ self' = self
   \/ exists topic,
       r = Some topic
       /\ In topic
            [u "mathematics"; u "science"; u "language"; u "history";
             u "technology"]
       /\ current_topic self' = Some topic
       /\ history self' = history self
       /\ max_history self' = max_history self
       /\ difficulty_level self' = difficulty_level self)
  /\ detect_topic self' query = (r, self').
Proof.
  cbv zeta. unfold detect_topic.
  pose proof (detect_topic_items_again topics self
                (snd (detect_topic_items topics self query)) query) as Hagain.
  destruct (detect_topic_items_cases topics self query)
    as [E|(topic & Hin & E)]; rewrite E in *; cbn [fst snd] in *.
  - split; [now left | exact E].
  - split.
    + right. exists topic. repeat split. exact Hin.
    + destruct (detect_topic_items_cases topics
                  (set_current_topic self (Some topic)) query)
        as [E'|(topic' & _ & E')]; rewrite E' in *; cbn [fst] in Hagain.
      * discriminate.
      * injection Hagain as ->. reflexivity.
Qed.

Lemma adjust_difficulty_items_cases (items : list (str * list str))
  (self : ConversationContext) (query : str) :
  adjust_difficulty_items items self query = self
  \/ exists level,
      In level (map fst items)
      /\ adjust_difficulty_items items self query
         = set_difficulty_level self level.
Proof.
  induction items as [|[l k] items IH]; cbn [adjust_difficulty_items map fst].
  - now left.
  - destruct (any_keyword_in k query).
    + right. exists l. split; [now left | reflexivity].
    + destruct IH as [IH|(level & Hin & IH)]; [now left|].
      right. exists level. split; [now right | exact IH].
Qed.

Lemma adjust_difficulty_step (self : ConversationContext) (query : str) :
  history (adjust_difficulty self query) = history self
  /\ max_history (adjust_difficulty self query) = max_history self
  /\ current_topic (adjust_difficulty self query) = current_topic self
  /\ (difficulty_level (adjust_difficulty self query) = difficulty_level self
      \/ In (difficulty_level (adjust_difficulty self query))
           [u "advanced"; u "beginner"]).
Proof.
  unfold adjust_difficulty.
  destruct (adjust_difficulty_items_cases complexity_indicators self query)
    as [E|(level & Hin & E)]; rewrite E.
  - repeat split. now left.
  - repeat split. right. exact Hin.
Qed.

(** X4. Whatever queries [adjust_difficulty] is called with, in whatever
    order, a level that starts as beginner, intermediate or advanced stays
    one of the three, and the history, the bound and the topic are never
    touched. *)
Theorem difficulty_level_stays_in_range (self : ConversationContext)
  (queries : list str)
  (Hstart : In (difficulty_level self) difficulty_levels) :
  let self' := fold_left adjust_difficulty queries self in
  In (difficulty_level self') difficulty_levels
  /\ history self' = history self
  /\ max_history self' = max_history self
  /\ current_topic self' = current_topic self.
Proof.
  cbv zeta. revert self Hstart.
  induction queries as [|q queries IH]; intros self Hstart; cbn [fold_left].
  - repeat split. exact Hstart.
  - destruct (adjust_difficulty_step self q) as (Hh & Hm & Ht & Hl).
    destruct (IH (adjust_difficulty self q)) as (I1 & I2 & I3 & I4).
    + destruct Hl as [->|Hl]; [exact Hstart|].
      destruct Hl as [<-|[<-|[]]]; cbn; auto.
    + split; [exact I1|]. rewrite I2, I3, I4. auto.
Qed.

(* ================================================================== *)
(** * Further properties: the generator and the handler *)
(* ================================================================== *)

Lemma generate_returns (w : World) (ctx : ConversationContext) (query : str) :
  exists out, generate_response_with_context w ctx query = Ok out.
Proof.
  unfold generate_response_with_context.
  destruct (any_keyword_in trigger_words query); [eauto|].
  destruct (generate_content w _); [eauto|].
  destruct (generate_emoji_total (entropy w)) as (emoji & E & _).
  rewrite E. cbn [bind]. eauto.
Qed.

(** X5. [generate_response_with_context] returns a text for every query
    string, every context and every behaviour of the model client: no
    path raises, the model's failure included. *)
Theorem generate_never_raises (w : World) (ctx : ConversationContext)
  (query : str) :
  (exists out, generate_response_with_context w ctx query = Ok out)
  /\ (forall e, generate_response_with_context w ctx query <> Raise e).
Proof.
  destruct (generate_returns w ctx query) as (out & E).
  split; [eauto|]. intros e H. congruence.
Qed.


(** X6. A request whose body is a JSON object with a string under [query]
    (or with no [query] entry) is answered with success on every context
    that can take an entry, whatever the model client does: the handler
    has no failure of its own on such a request. *)
Theorem query_succeeds_on_wellformed (w : World) (members : list (str * json))
  (ctx : ConversationContext) (query_text : str)
  (Hquery : dict_get members (u "query") (JString []) = JString query_text)
  (Hroom : history ctx <> [] \/ (1 <= max_history ctx)%Z) :
  exists text ctx',
    query w (Ok (JObject members)) ctx = (Success text, ctx')
    /\ generate_response_with_context w ctx query_text = Ok text
    /\ add_interaction ctx query_text text = Ok ctx'.
Proof.
  destruct (generate_returns w ctx query_text) as (text & Eg).
  assert (Ha : exists ctx', add_interaction ctx query_text text = Ok ctx').
  { unfold add_interaction.
    destruct (Z.geb_spec (Z.of_nat (length (history ctx))) (max_history ctx)).
    - destruct (history ctx); cbn [length list_pop0 bind] in *.
      + destruct Hroom as [Hne|Hmax]; [contradiction | lia].
      + eauto.
    - cbn [bind]. eauto. }
  destruct Ha as (ctx' & Ea).
  exists text, ctx'. split; [|split; assumption].
  unfold query, query_body. cbn [bind]. rewrite Hquery, Eg. cbn [bind].
  now rewrite Ea.
Qed.

(** X7. A request answered with failure leaves the shared context exactly
    as it was, and the failure has one of three causes: the body could not
    be decoded (the decoder's exception is reported), the decoded value is
    malformed ([AttributeError]), or the context cannot take an entry
    ([IndexError], empty history with a bound of zero or less). *)
Theorem query_failure_causes (w : World) (body : result json)
  (ctx ctx' : ConversationContext) (e : exn)
  (Hfail : query w body ctx = (Failure e, ctx')) :
  ctx' = ctx
  /\ (body = Raise e
      \/ (e = AttributeError /\ exists data, body = Ok data /\ malformed data)
      \/ (e = IndexError /\ history ctx = [] /\ (max_history ctx <= 0)%Z)).
Proof.
  unfold query, query_body in Hfail.
  destruct body as [data|e0]; cbn [bind] in Hfail.
  2:{ injection Hfail as <- <-. split; [reflexivity | now left]. }
  destruct data as [| | | | |members];
    try (injection Hfail as <- <-; split; [reflexivity|];
         right; left; split; [reflexivity|]; eexists; split;
         [reflexivity | exact I]).
  destruct (dict_get members (u "query") (JString [])) as [| | |q| |] eqn:Eq;
    try (injection Hfail as <- <-; split; [reflexivity|];
         right; left; split; [reflexivity|]; eexists; split;
         [reflexivity | cbn [malformed]; intros s; rewrite Eq; discriminate]).
  destruct (generate_returns w ctx q) as (text & Eg).
  rewrite Eg in Hfail. cbn [bind] in Hfail.
  destruct (add_interaction ctx q text) as [c1|e1] eqn:Ea;
    cbn [bind] in Hfail; [discriminate|].
  injection Hfail as <- <-. split; [reflexivity|]. right. right.
  unfold add_interaction in Ea.
  destruct (Z.geb_spec (Z.of_nat (length (history ctx))) (max_history ctx));
    [|discriminate].
  destruct (history ctx); cbn [length list_pop0 bind] in *; [|discriminate].
  injection Ea as <-. repeat split. lia.
Qed.

Lemma dict_get_absent (members : list (str * json)) (key : str) (default : json) :
  (forall k v, In (k, v) members -> k <> key) ->
  dict_get members key default = default.
Proof.
  unfold dict_get. revert default.
  induction members as [|[k v] members IH]; intros default H; cbn [fold_left];
    [reflexivity|].
  cbn [fst snd]. destruct (str_eqb k key) eqn:E.
  - apply str_eqb_eq in E. exfalso. apply (H k v); [now left | exact E].
  - apply IH. intros k' v' Hin. apply (H k' v'). now right.
Qed.

(** X8. A body without a [query] entry (the empty object included) is
    handled exactly as a body whose [query] is the empty string: same
    answer, same context afterwards. *)
Theorem query_missing_key_is_empty_query (w : World)
  (members : list (str * json)) (ctx : ConversationContext)
  (Habsent : forall k v, In (k, v) members -> k <> u "query") :
  query w (Ok (JObject members)) ctx
  = query w (Ok (JObject [(u "query", JString [])])) ctx.
Proof.
  unfold query, query_body. cbn [bind].
  rewrite (dict_get_absent _ _ _ Habsent). reflexivity.
Qed.




(* ================================================================== *)
(** * Further properties: the escaping chain *)
(* ================================================================== *)

(** Case split on what [escape_char] does with [x]; a rewritten code point
    is replaced by its value. *)
Ltac escape_cases x :=
  unfold escape_char;
  let E := fresh "E" in
  destruct (AMP =? x)%N eqn:E; [apply N.eqb_eq in E; subst x|];
  [|let E := fresh "E" in
    destruct (LT =? x)%N eqn:E; [apply N.eqb_eq in E; subst x|];
    [|let E := fresh "E" in
      destruct (GT =? x)%N eqn:E; [apply N.eqb_eq in E; subst x|];
      [|let E := fresh "E" in
        destruct (DQUOTE =? x)%N eqn:E; [apply N.eqb_eq in E; subst x|];
        [|let E := fresh "E" in
          destruct (APOS =? x)%N eqn:E; [apply N.eqb_eq in E; subst x|]]]]].

Lemma escape_char_prefix_free (x y : codepoint) (r1 r2 : str) :
  escape_char x ++ r1 = escape_char y ++ r2 -> x = y /\ r1 = r2.
Proof.
  escape_cases x; escape_cases y; intros H; vm_compute in H;
    try discriminate;
    try (injection H as H; split; [reflexivity | assumption]);
    try (injection H as H1 H2; subst;
         match goal with
         | E : (_ =? _)%N = false |- _ => vm_compute in E; discriminate
         end).
  injection H as -> ->. split; reflexivity.
Qed.

Lemma escape_char_nonempty (x : codepoint) : escape_char x <> [].
Proof. escape_cases x; discriminate. Qed.

Lemma flat_map_escape_injective (a : str) :
  forall b, flat_map escape_char a = flat_map escape_char b -> a = b.
Proof.
  induction a as [|x a IH]; intros [|y b] H; cbn [flat_map] in H.
  - reflexivity.
  - symmetry in H. apply app_eq_nil in H as [H _].
    now apply escape_char_nonempty in H.
  - apply app_eq_nil in H as [H _]. now apply escape_char_nonempty in H.
  - apply escape_char_prefix_free in H as [-> H]. f_equal. now apply IH.
Qed.

(** X10. The escaping chain loses nothing: two texts with the same
    escaped form are the same text, so the escaped output determines the
    text that was escaped. *)
Theorem escape_html_injective (a b : str) :
  escape_html a = escape_html b <-> a = b.
Proof.
  split; [|now intros ->].
  rewrite !escape_html_char_wise. apply flat_map_escape_injective.
Qed.

Lemma escape_char_length (x : codepoint) :
  1 <= length (escape_char x) <= 6
  /\ (html_special x = false -> escape_char x = [x])
  /\ (html_special x = true -> 4 <= length (escape_char x)).
Proof.
  unfold html_special.
  escape_cases x; cbn; repeat split; try lia; try discriminate;
    try reflexivity.
  all: rewrite ?E, ?E0, ?E1, ?E2, ?E3; cbn; try discriminate; reflexivity.
Qed.

(** X11. Escaping never shortens a text and at most multiplies its length
    by six; it returns the text unchanged exactly when the text holds none
    of the five rewritten code points. *)
Theorem escape_html_growth (text : str) :
  length text <= length (escape_html text) <= 6 * length text
  /\ (escape_html text = text <-> forallb (fun c => negb (html_special c)) text = true).
Proof.
  rewrite escape_html_char_wise.
  induction text as [|x text IH]; cbn [flat_map length forallb].
  - repeat split; try lia; reflexivity.
  - destruct IH as (Hlen & Hfix).
    destruct (escape_char_length x) as (Hx & Hplain & Hspecial).
    rewrite length_app. split; [lia|].
    destruct (html_special x) eqn:Es; cbn [negb andb].
    + split; [|discriminate]. intros H.
      apply (f_equal (@length codepoint)) in H.
      rewrite length_app in H. cbn [length] in H.
      specialize (Hspecial eq_refl). lia.
    + rewrite (Hplain eq_refl). cbn [app]. rewrite <- Hfix.
      split; [intros H; now injection H | intros ->; reflexivity].
Qed.

Lemma lstrip_head (s : str) :
  lstrip s = [] \/ exists c tl, lstrip s = c :: tl /\ isspace c = false.
Proof.
  induction s as [|c s IH]; cbn [lstrip]; [now left|].
  destruct (isspace c) eqn:E; [exact IH|].
  right. now exists c, s.
Qed.

Lemma lstrip_app_keep (l : str) (c : codepoint) (r : str) :
  isspace c = false ->
  exists l', lstrip (l ++ c :: r) = l' ++ c :: r.
Proof.
  intros Hc. induction l as [|x l IH]; cbn [app lstrip].
  - rewrite Hc. now exists [].
  - destruct (isspace x); [exact IH|]. now exists (x :: l).
Qed.

(** After [strip] a text is empty or has a non-space code point at each
    end. *)
Lemma strip_ends (s : str) :
  strip s = []
  \/ exists a mid,
      isspace a = false
      /\ (strip s = [a]
          \/ exists b, isspace b = false /\ strip s = a :: mid ++ [b]).
Proof.
  unfold strip, rstrip.
  destruct (lstrip_head s) as [->|(a & tl & -> & Ha)]; [now left|].
  right. exists a. cbn [rev].
  destruct (lstrip_app_keep (rev tl) a [] Ha) as (l' & E').
  destruct (lstrip_head (rev tl ++ [a])) as [E|(c & t' & E & Hc)];
    rewrite E' in E.
  - destruct l'; discriminate.
  - rewrite E', rev_app_distr. cbn [rev app].
    destruct l' as [|x l'']; cbn [app] in E.
    + exists []. split; [exact Ha|]. now left.
    + injection E as -> _. exists (rev l''). split; [exact Ha|].
      right. exists c. split; [exact Hc | reflexivity].
Qed.

Lemma strip_fixed1 (a : codepoint) : isspace a = false -> strip [a] = [a].
Proof.
  intros Ha. unfold strip, rstrip. cbn [lstrip]. rewrite Ha.
  cbn [rev app lstrip]. now rewrite Ha.
Qed.

Lemma strip_fixed2 (a : codepoint) (mid : str) (b : codepoint) :
  isspace a = false -> isspace b = false ->
  strip (a :: mid ++ [b]) = a :: mid ++ [b].
Proof.
  intros Ha Hb. unfold strip, rstrip. cbn [lstrip]. rewrite Ha.
  cbn [rev]. rewrite rev_app_distr. cbn [rev app lstrip]. rewrite Hb.
  cbn [rev]. rewrite rev_app_distr, rev_involutive. reflexivity.
Qed.

Lemma escape_char_ends (x : codepoint) :
  isspace x = false ->
  exists a mid,
    isspace a = false
    /\ (escape_char x = [a]
        \/ exists b, isspace b = false /\ escape_char x = a :: mid ++ [b]).
Proof.
  intros Hx.
  escape_cases x.
  1: exists AMP, (u "amp"). 2: exists AMP, (u "lt"). 3: exists AMP, (u "gt").
  4: exists AMP, (u "quot"). 5: exists AMP, (u "#039").
  1-5: split; [reflexivity|]; right; exists 59%N; split; reflexivity.
  exists x, []. split; [exact Hx|]. now left.
Qed.

(** X12. The output of [sanitize_response] carries no white space at
    either end: it is its own [strip], whatever the input. *)
Theorem sanitize_response_is_stripped (text : str) :
  strip (sanitize_response text) = sanitize_response text.
Proof.
  unfold sanitize_response.
  match goal with |- context [escape_html (strip ?t)] => generalize t end.
  intros t. rewrite escape_html_char_wise.
  destruct (strip_ends t) as [->|(a & mid & Ha & [->|(b & Hb & ->)])].
  - reflexivity.
  - cbn [flat_map]. rewrite app_nil_r.
    destruct (escape_char_ends a Ha) as (a' & mid' & Ha' & [->|(b' & Hb' & ->)]).
    + now apply strip_fixed1.
    + now apply strip_fixed2.
  - cbn [flat_map]. rewrite flat_map_app. cbn [flat_map]. rewrite app_nil_r.
    destruct (escape_char_ends a Ha) as (a' & m1 & Ha' & [->|(a2 & Ha2 & ->)]);
      destruct (escape_char_ends b Hb) as (b1 & m2 & Hb1 & [->|(b' & Hb' & ->)]).
    + cbn [app]. now apply strip_fixed2.
    + cbn [app].
      replace (a' :: flat_map escape_char mid ++ b1 :: m2 ++ [b'])
        with (a' :: (flat_map escape_char mid ++ b1 :: m2) ++ [b'])
        by (now rewrite <- app_assoc).
      now apply strip_fixed2.
    + cbn [app].
      replace (a' :: (m1 ++ [a2]) ++ flat_map escape_char mid ++ [b1])
        with (a' :: ((m1 ++ [a2]) ++ flat_map escape_char mid) ++ [b1])
        by (now rewrite <- !app_assoc).
      now apply strip_fixed2.
    + cbn [app].
      replace (a' :: (m1 ++ [a2]) ++ flat_map escape_char mid ++ b1 :: m2 ++ [b'])
        with (a' :: ((m1 ++ [a2]) ++ flat_map escape_char mid ++ b1 :: m2) ++ [b'])
        by (now rewrite <- !app_assoc).
      now apply strip_fixed2.
Qed.

(* ================================================================== *)
(** * Further properties: the formatter *)
(* ================================================================== *)

(** What holds of every code point of the inputs of a string operation
    holds of every code point of its result. *)
Section Preservation.

Variable P : codepoint -> Prop.

Lemma Forall_firstn_str (n : nat) (l : str) :
  Forall P l -> Forall P (firstn n l).
Proof.
  revert l; induction n as [|n IH]; intros [|c l] H; cbn [firstn];
    try constructor; inversion H; subst; auto.
Qed.

Lemma Forall_skipn_str (n : nat) (l : str) :
  Forall P l -> Forall P (skipn n l).
Proof.
  revert l; induction n as [|n IH]; intros [|c l] H; cbn [skipn];
    try assumption. inversion H; subst; auto.
Qed.

Lemma lstrip_Forall (s : str) : Forall P s -> Forall P (lstrip s).
Proof.
  induction s as [|c s IH]; intros H; cbn [lstrip]; [constructor|].
  destruct (isspace c); [|assumption]. inversion H; subst; auto.
Qed.

Lemma strip_Forall (s : str) : Forall P s -> Forall P (strip s).
Proof.
  intros H. unfold strip, rstrip.
  apply Forall_rev, lstrip_Forall, Forall_rev, lstrip_Forall, H.
Qed.

Lemma inner_group_Forall (n : nat) (g0 : str) :
  Forall P g0 -> Forall P (inner_group n g0).
Proof.
  intros H. unfold inner_group. now apply Forall_firstn_str, Forall_skipn_str.
Qed.

Lemma replace_from_Forall (old new text : str) :
  Forall P new -> Forall P text ->
  forall skip, Forall P (replace_from old new text skip).
Proof.
  intros Hnew. induction text as [|c text IH]; intros H skip;
    cbn [replace_from]; [constructor|].
  inversion H; subst.
  destruct skip; [|auto].
  destruct (startswith old (c :: text)).
  - apply Forall_app. split; auto.
  - constructor; auto.
Qed.

Lemma str_replace_Forall (text old new : str) :
  Forall P new -> Forall P text -> Forall P (str_replace text old new).
Proof.
  intros Hnew H. unfold str_replace. destruct old.
  - apply Forall_app. split; [assumption|].
    apply Forall_flat_map. eapply Forall_impl; [|exact H].
    intros c Hc. now constructor.
  - now apply replace_from_Forall.
Qed.

Lemma str_replace1_Forall (text old new : str) :
  Forall P new -> Forall P text -> Forall P (str_replace1 text old new).
Proof.
  intros Hnew. induction text as [|c text IH]; intros H; cbn [str_replace1].
  - destruct (startswith old []); [|constructor].
    apply Forall_app. split; [assumption|]. now apply Forall_skipn_str.
  - destruct (startswith old (c :: text)).
    + apply Forall_app. split; [assumption|]. now apply Forall_skipn_str.
    + inversion H; subst. constructor; auto.
Qed.

Lemma split_from_Forall (sep text : str) :
  Forall P text ->
  forall skip cur,
    Forall P cur -> Forall (Forall P) (split_from sep text skip cur).
Proof.
  induction text as [|c text IH]; intros H skip cur Hcur; cbn [split_from].
  - constructor; [now apply Forall_rev | constructor].
  - inversion H; subst. destruct skip; [|auto].
    destruct (startswith sep (c :: text)).
    + constructor; [now apply Forall_rev | auto].
    + apply IH; auto.
Qed.

Lemma str_join_Forall (sep : str) (pieces : list str) :
  Forall P sep -> Forall (Forall P) pieces -> Forall P (str_join sep pieces).
Proof.
  intros Hsep. induction pieces as [|x pieces IH]; intros H; cbn [str_join];
    [constructor|].
  inversion H; subst. destruct pieces; [assumption|].
  apply Forall_app. split; [assumption|].
  apply Forall_app. split; auto.
Qed.

Lemma finditer_from_Forall (p : pattern) (t : str) :
  Forall P t ->
  forall bol skip, Forall (Forall P) (finditer_from p bol t skip).
Proof.
  induction t as [|c t IH]; intros H bol skip; cbn [finditer_from];
    [constructor|].
  inversion H; subst. destruct skip; [|auto].
  destruct (p bol (c :: t)) as [[|n]|]; auto.
  constructor; [|auto]. now apply Forall_firstn_str.
Qed.

Lemma sub_from_Forall (p : pattern) (repl : str -> str) (t : str) :
  (forall g0, Forall P g0 -> Forall P (repl g0)) ->
  Forall P t ->
  forall bol skip, Forall P (sub_from p repl bol t skip).
Proof.
  intros Hrepl. induction t as [|c t IH]; intros H bol skip;
    cbn [sub_from]; [constructor|].
  inversion H; subst. destruct skip; [|auto].
  destruct (p bol (c :: t)) as [[|n]|]; try (constructor; auto).
  apply Forall_app. split; [|auto].
  now apply Hrepl, Forall_firstn_str.
Qed.

Lemma fold_replace_Forall (wrap : str -> str) (matches : list str) :
  (forall g0, Forall P g0 -> Forall P (wrap g0)) ->
  Forall (Forall P) matches ->
  forall text,
    Forall P text ->
    Forall P
      (fold_left (fun text g0 => str_replace text g0 (wrap g0)) matches text).
Proof.
  intros Hwrap. induction matches as [|g0 matches IH]; intros H text Ht;
    cbn [fold_left]; [assumption|].
  inversion H; subst. apply IH; [assumption|].
  apply str_replace_Forall; auto.
Qed.

Lemma fold_highlight_Forall (toks : list str) :
  (forall tok, Forall P tok -> Forall P (symbol_span tok)) ->
  Forall (Forall P) toks ->
  forall text, Forall P text -> Forall P (fold_left highlight_step toks text).
Proof.
  intros Hwrap. induction toks as [|tok toks IH]; intros H text Ht;
    cbn [fold_left]; [assumption|].
  inversion H; subst. apply IH; [assumption|].
  unfold highlight_step. destruct (list_in tok stopwords); [assumption|].
  apply str_replace1_Forall; auto.
Qed.

End Preservation.

(** The second step rewrites every asterisk. *)
Lemma sub_pat_star_char_wise (repl : str -> str) (t : str) :
  forall bol,
    sub_from pat_star repl bol t 0
    = flat_map (fun c => if (STAR =? c)%N then repl [STAR] else [c]) t.
Proof.
  induction t as [|c t IH]; intros bol; cbn [sub_from flat_map];
    [reflexivity|].
  unfold pat_star at 1, unanchored, re_lit, re_end.
  change (u "*") with [STAR]. cbn [startswith length skipn option_map Nat.add].
  rewrite andb_true_r.
  destruct (STAR =? c)%N eqn:E.
  - apply N.eqb_eq in E; subst c. cbn [firstn]. now rewrite IH.
  - cbn [app]. now rewrite IH.
Qed.

(** A text of markup code points other than the asterisk. *)
Lemma markup_text_ok (text s : str) :
  forallb (fun c => negb (STAR =? c)%N && existsb (N.eqb c) markup_alphabet) s
  = true ->
  Forall (fun c => c <> STAR /\ (In c text \/ In c markup_alphabet)) s.
Proof.
  intros H. apply Forall_forall. intros c Hc.
  rewrite forallb_forall in H. specialize (H c Hc).
  apply andb_true_iff in H as [H1 H2].
  split.
  - intros ->. discriminate.
  - right. now apply existsb_eqb_In.
Qed.

(** X13. The formatter's output holds no asterisk, and every code point
    of it is a code point of the input or one the formatter's own markup
    is made of. *)
Theorem format_output_alphabet (text : str) (c : codepoint) :
  In c (format_mathematical_notation text) ->
  c <> STAR /\ (In c text \/ In c markup_alphabet).
Proof.
  revert c. apply Forall_forall.
  set (P := fun c => c <> STAR /\ (In c text \/ In c markup_alphabet)).
  set (Q := fun c => In c text \/ In c markup_alphabet).
  unfold format_mathematical_notation.
  assert (H1 : Forall Q (sub pat_double_star (fun _ => u "^") text)).
  { apply sub_from_Forall.
    - intros _ _. constructor; [|constructor]. right. now left.
    - apply Forall_forall. intros c Hc. now left. }
  assert (H2 : Forall P
                 (sub pat_star (fun _ => [215%N])
                    (sub pat_double_star (fun _ => u "^") text))).
  { unfold sub at 1. rewrite sub_pat_star_char_wise.
    apply Forall_flat_map. eapply Forall_impl; [|exact H1].
    intros c Hc. destruct (STAR =? c)%N eqn:E.
    - constructor; [|constructor]. split; [discriminate|].
      right. right. now left.
    - constructor; [|constructor]. split; [|exact Hc].
      intros ->. discriminate. }
  set (t2 := sub pat_star _ _) in *. clearbody t2.
  assert (Hwrap : forall (o cl g : str),
             forallb (fun c => negb (STAR =? c)%N
                               && existsb (N.eqb c) markup_alphabet) (o ++ cl)
             = true ->
             Forall P g -> Forall P (o ++ g ++ cl)).
  { intros o cl g Hm Hg.
    apply (markup_text_ok text), Forall_app in Hm as [Ho Hcl].
    apply Forall_app. split; [exact Ho|]. apply Forall_app. now split. }
  assert (H3 : Forall P
                 (fold_left (fun text eq => str_replace text eq (equation_div eq))
                    (finditer pat_block_math t2) t2)).
  { apply fold_replace_Forall; [|now apply finditer_from_Forall | exact H2].
    intros g Hg. unfold equation_div. apply Hwrap; [reflexivity|].
    now apply strip_Forall, inner_group_Forall. }
  set (t3 := fold_left _ (finditer pat_block_math t2) t2) in *. clearbody t3.
  assert (H4 : Forall P
                 (fold_left (fun text m => str_replace text m (math_span m))
                    (finditer pat_inline_math t3) t3)).
  { apply fold_replace_Forall; [|now apply finditer_from_Forall | exact H3].
    intros g Hg. unfold math_span. apply Hwrap; [reflexivity|].
    now apply strip_Forall, inner_group_Forall. }
  set (t4 := fold_left _ (finditer pat_inline_math t3) t3) in *. clearbody t4.
  assert (H5 : Forall P
                 (str_join [NL]
                    (map step_div
                       (filter (fun step => truthy (strip step))
                          (str_split t4 [NL; NL]))))).
  { apply str_join_Forall.
    - apply (markup_text_ok text). reflexivity.
    - apply Forall_map.
      assert (Hs : Forall (Forall P) (str_split t4 [NL; NL])).
      { apply split_from_Forall; [exact H4 | constructor]. }
      apply Forall_forall. intros step Hin.
      apply filter_In in Hin as [Hin _].
      rewrite Forall_forall in Hs. specialize (Hs step Hin).
      unfold step_div. apply Hwrap; [reflexivity|].
      now apply strip_Forall. }
  set (t5 := str_join _ _) in *. clearbody t5.
  unfold highlight_symbols.
  apply fold_highlight_Forall; [|now apply finditer_from_Forall | exact H5].
  intros tok Htok. unfold symbol_span. now apply Hwrap.
Qed.

Lemma sub_from_rejects (P : codepoint -> bool) (p : pattern)
  (repl : str -> str) (t : str) :
  rejects P p -> forallb P t = true ->
  forall bol, sub_from p repl bol t 0 = t.
Proof.
  intros Hp. induction t as [|c t IH]; intros H bol; cbn [sub_from];
    [reflexivity|].
  cbn [forallb] in H. apply andb_true_iff in H as [Hc Ht].
  rewrite (Hp bol c t Hc). now rewrite IH.
Qed.

Lemma finditer_from_rejects (P : codepoint -> bool) (p : pattern) (t : str) :
  rejects P p -> forallb P t = true ->
  forall bol, finditer_from p bol t 0 = [].
Proof.
  intros Hp. induction t as [|c t IH]; intros H bol; cbn [finditer_from];
    [reflexivity|].
  cbn [forallb] in H. apply andb_true_iff in H as [Hc Ht].
  rewrite (Hp bol c t Hc). now apply IH.
Qed.

Lemma re_lit_head_mismatch (a : codepoint) (s : str) (k : cont)
  (c : codepoint) (tl : str) :
  (a =? c)%N = false -> re_lit (a :: s) k (c :: tl) = None.
Proof.
  intros H. unfold re_lit. cbn [startswith]. now rewrite H.
Qed.

Lemma isspace_not_star_dollar (c : codepoint) :
  isspace c = true -> (STAR =? c)%N = false /\ (36 =? c)%N = false.
Proof.
  intros H. split.
  - destruct (STAR =? c)%N eqn:E; [|reflexivity].
    apply N.eqb_eq in E; subst c. discriminate.
  - destruct (36 =? c)%N eqn:E; [|reflexivity].
    apply N.eqb_eq in E; subst c. discriminate.
Qed.

Lemma formatter_patterns_reject_space :
  rejects isspace pat_double_star /\ rejects isspace pat_star
  /\ rejects isspace pat_block_math /\ rejects isspace pat_inline_math.
Proof.
  repeat split; intros bol c tl Hc;
    destruct (isspace_not_star_dollar c Hc) as [Hs Hd];
    unfold pat_double_star, pat_star, pat_block_math, pat_inline_math,
      unanchored;
    apply re_lit_head_mismatch; assumption.
Qed.

Lemma lstrip_blank (s : str) : forallb isspace s = true -> lstrip s = [].
Proof.
  induction s as [|c s IH]; cbn [forallb lstrip]; intros H; [reflexivity|].
  apply andb_true_iff in H as [Hc Hs]. rewrite Hc. auto.
Qed.

Lemma filter_none {A : Type} (f : A -> bool) (l : list A) :
  Forall (fun x => f x = false) l -> filter f l = [].
Proof.
  induction 1 as [|x l Hx _ IH]; cbn [filter]; [reflexivity|].
  now rewrite Hx.
Qed.

Lemma format_blank (text : str) :
  forallb isspace text = true -> format_mathematical_notation text = [].
Proof.
  intros H.
  destruct formatter_patterns_reject_space as (R1 & R2 & R3 & R4).
  unfold format_mathematical_notation, sub, finditer.
  rewrite (sub_from_rejects isspace _ _ _ R1 H).
  rewrite (sub_from_rejects isspace _ _ _ R2 H).
  rewrite (finditer_from_rejects isspace _ _ R3 H). cbn [fold_left].
  rewrite (finditer_from_rejects isspace _ _ R4 H). cbn [fold_left].
  rewrite filter_none; [reflexivity|].
  assert (Hs : Forall (Forall (fun c => isspace c = true))
                 (str_split text [NL; NL])).
  { apply split_from_Forall; [|constructor].
    apply Forall_forall. now apply forallb_forall. }
  eapply Forall_impl; [|exact Hs].
  intros step Hstep. cbv beta.
  unfold strip. rewrite lstrip_blank; [reflexivity|].
  apply forallb_forall. now apply Forall_forall.
Qed.

(** X14. A text of white space only (the empty text included) is
    formatted to the empty text; when the model client answers with such a
    text on a plain query, the generator returns the empty text as its
    result. *)
Theorem blank_answer_gives_empty_response (text : str)
  (Hblank : forallb isspace text = true) :
  format_mathematical_notation text = []
  /\ (forall w ctx query,
        ~ keyword_match trigger_words query ->
        generate_content w (context_prompt query (length (history ctx)))
        = Some text ->
        generate_response_with_context w ctx query = Ok []).
Proof.
  split; [now apply format_blank|].
  intros w ctx query Hplain Hanswer.
  unfold generate_response_with_context.
  rewrite (any_keyword_in_false _ _ Hplain), Hanswer, (format_blank _ Hblank).
  reflexivity.
Qed.

Lemma highlight_keeps_lt (toks : list str) :
  Forall (fun tok => symbol_token tok = true) toks ->
  forall tl, exists tl', fold_left highlight_step toks (LT :: tl) = LT :: tl'.
Proof.
  induction 1 as [|tok toks Htok _ IH]; intros tl; cbn [fold_left]; [eauto|].
  unfold highlight_step at 2.
  destruct (list_in tok stopwords); [apply IH|].
  destruct tok as [|a tok]; [discriminate|].
  assert (Ha : (a =? LT)%N = false).
  { destruct (a =? LT)%N eqn:E; [|reflexivity].
    apply N.eqb_eq in E; subst a.
    destruct tok as [|b [|c [|d tok]]]; discriminate. }
  cbn [str_replace1 startswith]. rewrite Ha. cbn [andb]. apply IH.
Qed.

(** The formatter's output is empty or opens with a less-than sign. *)
Lemma format_head (text : str) :
  format_mathematical_notation text = []
  \/ exists tl, format_mathematical_notation text = LT :: tl.
Proof.
  unfold format_mathematical_notation.
  match goal with
  | |- context [filter ?f ?l] => destruct (filter f l) as [|step steps]
  end.
  - now left.
  - right. unfold highlight_symbols.
    match goal with
    | |- context [str_join ?s ?l] =>
        assert (Hj : exists tl, str_join s l = LT :: tl)
    end.
    { cbn [map str_join]. destruct (map step_div steps);
        unfold step_div, open_tag; change (u "<") with [LT]; cbn [app]; eauto. }
    destruct Hj as (tl & ->).
    apply highlight_keeps_lt, finditer_symbol_tokens.
Qed.

Lemma sub_from_head (p : pattern) (repl : str -> str) (bol : bool)
  (c : codepoint) (tl : str) :
  p bol (c :: tl) = None ->
  sub_from p repl bol (c :: tl) 0 = c :: sub_from p repl (c =? NL)%N tl 0.
Proof. intros H. cbn [sub_from]. now rewrite H. Qed.

Lemma strip_head (c : codepoint) (tl : str) :
  isspace c = false -> exists tl', strip (c :: tl) = c :: tl'.
Proof.
  intros Hc. unfold strip, rstrip. cbn [lstrip]. rewrite Hc. cbn [rev].
  destruct (lstrip_app_keep (rev tl) c [] Hc) as (l' & ->).
  rewrite rev_app_distr. cbn [rev app]. eauto.
Qed.

Lemma sanitize_response_lt (tl : str) :
  exists rest, sanitize_response (LT :: tl) = u "&lt;" ++ rest.
Proof.
  unfold sanitize_response, sub.
  rewrite (sub_from_head pat_newlines) by reflexivity.
  rewrite (sub_from_head pat_step) by reflexivity.
  rewrite (sub_from_head pat_conclusion) by reflexivity.
  rewrite (sub_from_head pat_block_math) by reflexivity.
  rewrite (sub_from_head pat_inline_math) by reflexivity.
  match goal with
  | |- context [strip (LT :: ?t)] =>
      destruct (strip_head LT t eq_refl) as (tl' & ->)
  end.
  rewrite escape_html_char_wise. cbn [flat_map]. eauto.
Qed.

(** X15. On the path where the model client answers, the formatter's
    markup reaches the caller as escaped text: the formatted answer is
    empty or opens with a less-than sign, and the returned text is then
    empty or opens with the entity of the less-than sign. *)
Theorem model_answer_markup_is_escaped (w : World) (ctx : ConversationContext)
  (query text : str)
  (Hplain : ~ keyword_match trigger_words query)
  (Hanswer : generate_content w (context_prompt query (length (history ctx)))
             = Some text) :
  (format_mathematical_notation text = []
   /\ generate_response_with_context w ctx query = Ok [])
  \/ (exists tl rest,
        format_mathematical_notation text = LT :: tl
        /\ generate_response_with_context w ctx query = Ok (u "&lt;" ++ rest)).
Proof.
  unfold generate_response_with_context.
  rewrite (any_keyword_in_false _ _ Hplain), Hanswer.
  destruct (format_head text) as [->|(tl & ->)].
  - left. split; reflexivity.
  - right. destruct (sanitize_response_lt tl) as (rest & ->).
    exists tl, rest. split; reflexivity.
Qed.

Lemma str_replace1_length (text old new : str) :
  length (str_replace1 text old new)
  + (if str_in old text then length old else 0)
  = length text + (if str_in old text then length new else 0).
Proof.
  destruct (str_in old text) eqn:E.
  - destruct (first_occurrence_exists _ _ E) as (pre & post & Hf).
    rewrite (str_replace1_first _ new _ _ _ Hf).
    destruct Hf as [-> _]. rewrite !length_app. lia.
  - now rewrite str_replace1_absent.
Qed.

Lemma symbol_span_length (tok : str) :
  length (symbol_span tok) = 28 + length tok.
Proof.
  unfold symbol_span. rewrite !length_app.
  change (length (open_tag (u "span") (u "symbol"))) with 21.
  change (length (close_tag (u "span"))) with 7. lia.
Qed.

Lemma fold_highlight_growth (toks : list str) :
  forall text,
    exists k,
      k <= length toks
      /\ length (fold_left highlight_step toks text) = length text + 28 * k.
Proof.
  induction toks as [|tok toks IH]; intros text; cbn [fold_left length].
  - exists 0. split; lia.
  - destruct (IH (highlight_step text tok)) as (k & Hk & ->).
    unfold highlight_step. destruct (list_in tok stopwords).
    + exists k. split; lia.
    + pose proof (str_replace1_length text tok (symbol_span tok)) as Hl.
      rewrite symbol_span_length in Hl.
      destruct (str_in tok text).
      * exists (S k). split; lia.
      * exists k. split; lia.
Qed.

(** X16. The symbol loop only ever inserts whole wrappers: its result is
    longer than its input by 28 code points for each replacement made, and
    there are at most as many replacements as matches of the scan. *)
Theorem highlight_symbols_growth (text : str) :
  exists k,
    k <= length (finditer pat_symbol text)
    /\ length (highlight_symbols text) = length text + 28 * k.
Proof. apply fold_highlight_growth. Qed.

(* ================================================================== *)
(** * Further properties: the clean-up steps of the sanitizer *)
(* ================================================================== *)

Lemma re_star_newlines (t : str) :
  re_star (fun c => (c =? NL)%N) re_end t = Some (leading_newlines t).
Proof.
  induction t as [|c t IH]; cbn [re_star leading_newlines]; [reflexivity|].
  destruct (c =? NL)%N; [now rewrite IH | reflexivity].
Qed.

Lemma startswith_three_newlines (t : str) :
  startswith [NL; NL; NL] t = (3 <=? leading_newlines t).
Proof.
  destruct t as [|a [|b [|c t]]]; cbn [startswith leading_newlines];
    rewrite ?(N.eqb_sym NL);
    repeat match goal with
           | |- context [(?x =? NL)%N] => destruct (x =? NL)%N
           end; reflexivity.
Qed.

Lemma pat_newlines_spec (bol : bool) (t : str) :
  pat_newlines bol t
  = if 3 <=? leading_newlines t then Some (leading_newlines t) else None.
Proof.
  unfold pat_newlines, unanchored, re_lit.
  rewrite <- startswith_three_newlines.
  destruct (startswith [NL; NL; NL] t) eqn:E; [|reflexivity].
  rewrite re_star_newlines. cbn [option_map]. f_equal.
  apply startswith_inv in E as [r ->].
  cbn [app length skipn leading_newlines]. now rewrite N.eqb_refl.
Qed.

Lemma leading_newlines_skipped (s : str) :
  leading_newlines (skipn (leading_newlines s) s) = 0.
Proof.
  induction s as [|c s IH]; cbn [leading_newlines]; [reflexivity|].
  destruct (c =? NL)%N eqn:E; cbn [skipn leading_newlines];
    [exact IH | now rewrite E].
Qed.

Lemma collapse_from (t : str) :
  forall skip bol,
    let out := sub_from pat_newlines (fun _ => [NL; NL]) bol t skip in
    str_in [NL; NL; NL] out = false
    /\ leading_newlines out = Nat.min 2 (leading_newlines (skipn skip t)).
Proof.
  cbv zeta.
  induction t as [|c t IH]; intros skip bol; cbn [sub_from].
  - destruct skip; split; reflexivity.
  - destruct skip as [|k]; [|apply IH].
    rewrite pat_newlines_spec. cbn [skipn].
    destruct (3 <=? leading_newlines (c :: t)) eqn:E3.
    + apply Nat.leb_le in E3.
      destruct (leading_newlines (c :: t)) as [|n] eqn:El; [lia|].
      cbn [leading_newlines] in El.
      destruct (c =? NL)%N eqn:Ec; [|discriminate]. injection El as El.
      destruct (IH n (c =? NL)%N) as (Hno & Hlead).
      rewrite Ec in Hno, Hlead.
      assert (Hz : leading_newlines (skipn n t) = 0)
        by (rewrite <- El; apply leading_newlines_skipped).
      rewrite Hz in Hlead. cbn [Nat.min] in Hlead.
      set (out := sub_from _ _ _ t n) in *. cbn [app].
      split.
      * cbn [str_in]. rewrite !startswith_three_newlines.
        cbn [leading_newlines]. rewrite N.eqb_refl, Hlead, Hno. reflexivity.
      * cbn [leading_newlines]. rewrite N.eqb_refl, Hlead. lia.
    + apply Nat.leb_gt in E3.
      destruct (IH 0 (c =? NL)%N) as (Hno & Hlead). cbn [skipn] in Hlead.
      set (out := sub_from _ _ _ t 0) in *.
      assert (Hout : leading_newlines (c :: out)
                     = Nat.min 2 (leading_newlines (c :: t))).
      { cbn [leading_newlines] in *. destruct (c =? NL)%N; lia. }
      split; [|exact Hout].
      cbn [str_in]. rewrite startswith_three_newlines, Hout, Hno.
      destruct (3 <=? Nat.min 2 (leading_newlines (c :: t))) eqn:E;
        [apply Nat.leb_le in E; lia | reflexivity].
Qed.

Lemma collapse_unchanged (t : str) :
  str_in [NL; NL; NL] t = false ->
  forall bol, sub_from pat_newlines (fun _ => [NL; NL]) bol t 0 = t.
Proof.
  induction t as [|c t IH]; intros H bol; cbn [sub_from]; [reflexivity|].
  cbn [str_in] in H. apply orb_false_iff in H as [Hs Ht].
  rewrite pat_newlines_spec, <- startswith_three_newlines, Hs.
  now rewrite IH.
Qed.

(** X17. The first clean-up step leaves no run of three newlines and
    changes nothing in a text that has none.  [sanitize_response] as a
    whole does not keep that: removing the dollar signs of a block can
    join two runs, and the output then holds four newlines in a row. *)
Theorem newline_collapse_not_kept :
  (forall text, str_in [NL; NL; NL] (collapse_newlines text) = false)
  /\ (forall text,
        str_in [NL; NL; NL] text = false -> collapse_newlines text = text)
  /\ (let text := u "$$a" ++ [NL; NL] ++ u "$$" ++ [NL; NL] ++ u "b" in
      str_in [NL; NL; NL] text = false
      /\ sanitize_response text
         = u "**Equation:** a" ++ [NL; NL; NL; NL] ++ u "b").
Proof.
  split; [|split].
  - intros text. apply (collapse_from text 0 true).
  - intros text H. now apply collapse_unchanged.
  - cbv zeta. split; vm_compute; reflexivity.
Qed.

(* ================================================================== *)
(** * Further properties: format_solution *)
(* ================================================================== *)

Lemma strip_blank (s : str) : forallb isspace s = true -> strip s = [].
Proof. intros H. unfold strip. now rewrite lstrip_blank. Qed.

Lemma format_steps_blank (steps : list str) :
  Forall (fun step => forallb isspace step = true
                      /\ forallb is_ascii step = true) steps ->
  forall i, format_steps i steps = [].
Proof.
  induction 1 as [|step steps [Hs Ha] _ IH]; intros i; cbn [format_steps];
    [reflexivity|].
  rewrite IH, app_nil_r. unfold format_step.
  rewrite (str_lower_ascii _ Ha), (strip_blank _ Hs). cbn [truthy].
  destruct step as [|c step].
  - rewrite andb_false_r. reflexivity.
  - cbn [forallb] in Hs. apply andb_true_iff in Hs as [Hc _].
    replace (startswith (u "solution:") (lower_ascii_text (c :: step)))
      with false; [now rewrite andb_false_r|].
    symmetry. cbn [lower_ascii_text map startswith].
    change (u "solution:") with (115%N :: u "olution:"). cbn [startswith].
    destruct (115 =? ascii_lower c)%N eqn:E; [|reflexivity].
    apply N.eqb_eq in E. exfalso. unfold ascii_lower in E.
    destruct ((65 <=? c) && (c <=? 90))%N eqn:Eu.
    + apply andb_true_iff in Eu as [E1 E2].
      apply N.leb_le in E1, E2. assert (c = 83%N) by lia. subst c.
      discriminate.
    + subst c. discriminate.
Qed.

(** X18. [format_solution] turns a text of ASCII white space only (the
    empty text included) into the empty text: blank steps are dropped, and
    a blank first step is no solution header. *)
Theorem format_solution_blank (text : str)
  (Hblank : forallb isspace text = true)
  (Hascii : forallb is_ascii text = true) :
  format_solution text = [].
Proof.
  unfold format_solution. rewrite format_steps_blank; [reflexivity|].
  assert (Hs : Forall (Forall (fun c => isspace c = true /\ is_ascii c = true))
                 (str_split text [NL; NL])).
  { apply split_from_Forall; [|constructor].
    apply Forall_forall. intros c Hc.
    rewrite forallb_forall in Hblank, Hascii. auto. }
  eapply Forall_impl; [|exact Hs].
  intros step Hstep. cbv beta. rewrite !forallb_forall.
  rewrite Forall_forall in Hstep.
  split; intros c Hc; now apply Hstep.
Qed.

(** X19. [format_solution] invents no text: every code point of its
    result is a code point of the input or one of the asterisk, the
    backquote, the letters of the word math and the newline. *)
Theorem format_solution_alphabet (text : str) (c : codepoint) :
  In c (format_solution text) -> In c text \/ In c solution_alphabet.
Proof.
  revert c. apply Forall_forall.
  set (P := fun c => In c text \/ In c solution_alphabet).
  assert (Hm : forall s, forallb (fun c => existsb (N.eqb c) solution_alphabet) s
                         = true -> Forall P s).
  { intros s H. apply Forall_forall. intros c Hc.
    rewrite forallb_forall in H. right. apply existsb_eqb_In. auto. }
  assert (Hbold : forall s, Forall P s ->
                    Forall P (u "**" ++ strip s ++ u "**" ++ [NL])).
  { intros s Hs. apply Forall_app. split; [now apply Hm|].
    apply Forall_app. split; [now apply strip_Forall | now apply Hm]. }
  unfold format_solution. apply str_join_Forall; [now apply Hm|].
  assert (Hs : Forall (Forall P) (str_split text [NL; NL])).
  { apply split_from_Forall; [|constructor].
    apply Forall_forall. intros c Hc. now left. }
  generalize 0 as i. induction Hs as [|step steps Hstep _ IH]; intros i;
    cbn [format_steps]; [constructor|].
  apply Forall_app. split; [|apply IH].
  unfold format_step.
  destruct ((i =? 0) && startswith (u "solution:") (str_lower step)).
  - constructor; [|constructor]. now apply Hbold.
  - destruct (truthy (strip step)); [|constructor].
    destruct (existsb _ heading_prefixes).
    + constructor; [|constructor].
      apply Forall_app. split; [now apply Hm | now apply Hbold].
    + constructor; [|constructor].
      apply str_join_Forall; [now apply Hm|].
      apply Forall_map.
      assert (Hl : Forall (Forall P) (str_split step [NL])).
      { apply split_from_Forall; [exact Hstep | constructor]. }
      eapply Forall_impl; [|exact Hl].
      intros line Hline. unfold format_line.
      destruct (existsb _ operator_chars); [|now apply strip_Forall].
      apply Forall_app. split; [now apply Hm|].
      apply Forall_app. split; [now apply Hm|].
      apply Forall_app. split; [now apply strip_Forall|].
      apply Forall_app. split; now apply Hm.
Qed.

(* ================================================================== *)
(** * The sanitizer, from input to output *)
(* ================================================================== *)

Lemma plain_patterns_reject :
  let plain := fun c => negb (NL =? c)%N && negb (DOLLAR =? c)%N in
  rejects plain pat_newlines /\ rejects plain pat_block_math
  /\ rejects plain pat_inline_math.
Proof.
  cbv zeta. repeat split; intros bol c tl Hc;
    apply andb_true_iff in Hc as [Hn Hd];
    apply negb_true_iff in Hn, Hd;
    unfold pat_newlines, pat_block_math, pat_inline_math, unanchored;
    apply re_lit_head_mismatch; assumption.
Qed.

(** Past the first code point of a one-line text no position is at the
    start of a line. *)
Lemma sub_from_anchored_inside (k : cont) (repl : str -> str) (t : str) :
  forallb (fun c => negb (NL =? c)%N) t = true ->
  sub_from (anchored_bol k) repl false t 0 = t.
Proof.
  induction t as [|c t IH]; cbn [forallb sub_from]; intros H; [reflexivity|].
  apply andb_true_iff in H as [Hc Ht]. apply negb_true_iff in Hc.
  unfold anchored_bol at 1. rewrite N.eqb_sym, Hc. now rewrite IH.
Qed.

Lemma sub_anchored_lit_line (s : str) (k : cont) (repl : str -> str) (t : str) :
  forallb (fun c => negb (NL =? c)%N) t = true ->
  startswith s t = false ->
  sub (anchored_bol (re_lit s k)) repl t = t.
Proof.
  intros Hline Hs. unfold sub. destruct t as [|c t]; [reflexivity|].
  cbn [sub_from]. unfold anchored_bol at 1, re_lit at 1. rewrite Hs.
  cbn [forallb] in Hline. apply andb_true_iff in Hline as [Hc Ht].
  apply negb_true_iff in Hc. rewrite N.eqb_sym, Hc.
  now rewrite sub_from_anchored_inside.
Qed.

Lemma sanitize_response_plain (text : str) :
  plain_line text = true ->
  sanitize_response text = flat_map escape_char text.
Proof.
  unfold plain_line. intros H.
  apply andb_true_iff in H as [H Hstrip].
  apply andb_true_iff in H as [H Hconcl].
  apply andb_true_iff in H as [Hplain Hstep].
  apply negb_true_iff in Hstep, Hconcl. apply str_eqb_eq in Hstrip.
  assert (Hline : forallb (fun c => negb (NL =? c)%N) text = true).
  { apply forallb_forall. intros c Hc.
    rewrite forallb_forall in Hplain. specialize (Hplain c Hc).
    now apply andb_true_iff in Hplain as [Hn _]. }
  destruct plain_patterns_reject as (R1 & R2 & R3).
  unfold sanitize_response.
  unfold sub at 5. rewrite (sub_from_rejects _ _ _ _ R1 Hplain).
  unfold pat_step. rewrite (sub_anchored_lit_line _ _ _ _ Hline Hstep).
  unfold pat_conclusion. rewrite (sub_anchored_lit_line _ _ _ _ Hline Hconcl).
  unfold sub at 2. rewrite (sub_from_rejects _ _ _ _ R2 Hplain).
  unfold sub. rewrite (sub_from_rejects _ _ _ _ R3 Hplain).
  rewrite Hstrip. apply escape_html_char_wise.
Qed.

(** C1. For every input, [sanitize_response] returns the five ordered
    full-text replacements (ampersand first, each on the result of the one
    before) of the text its clean-up steps make of the input; that chain
    acts as a single character-wise escaping of the cleaned text, so the
    output holds no literal less-than, greater-than, double quote or
    apostrophe, and every ampersand in it starts one of the five entities.
    On a plain line the clean-up steps change nothing and the output is
    the character-wise escaping of the input itself. *)
Theorem sanitize_response_escapes (text : str) :
  let cleaned :=
    strip
      (sub pat_inline_math (fun g0 => u "*" ++ inner_group 1 g0 ++ u "*")
         (sub pat_block_math (fun g0 => u "**Equation:** " ++ inner_group 2 g0)
            (sub pat_conclusion bold
               (sub pat_step bold
                  (sub pat_newlines (fun _ => [NL; NL]) text))))) in
  sanitize_response text
  = str_replace
      (str_replace
         (str_replace
            (str_replace (str_replace cleaned (u "&") (u "&amp;"))
               (u "<") (u "&lt;"))
            (u ">") (u "&gt;"))
         [DQUOTE] (u "&quot;"))
      (u "'") (u "&#039;")
  /\ sanitize_response text = flat_map escape_char cleaned
  /\ (forall c, In c (sanitize_response text) ->
        c <> LT /\ c <> GT /\ c <> DQUOTE /\ c <> APOS)
  /\ (forall pre post, sanitize_response text = pre ++ AMP :: post ->
        exists e, In e entity_tails /\ startswith e post = true)
  /\ (plain_line text = true ->
      sanitize_response text = flat_map escape_char text)
  /\ sanitize_response (u "Tom & <b>'s") = u "Tom &amp; &lt;b&gt;&#039;s".
Proof.
  cbv zeta.
  split; [reflexivity|].
  assert (E : sanitize_response text
              = flat_map escape_char
                  (strip
                     (sub pat_inline_math
                        (fun g0 => u "*" ++ inner_group 1 g0 ++ u "*")
                        (sub pat_block_math
                           (fun g0 => u "**Equation:** " ++ inner_group 2 g0)
                           (sub pat_conclusion bold
                              (sub pat_step bold
                                 (sub pat_newlines (fun _ => [NL; NL]) text))))))).
  { unfold sanitize_response. apply escape_html_char_wise. }
  split; [exact E|].
  split; [apply sanitize_response_no_markup|].
  split.
  - rewrite E. apply ampersands_lead_entities_spec, escaped_ampersands.
  - split; [apply sanitize_response_plain|].
    vm_compute. reflexivity.
Qed.

End App.

(* ================================================================== *)
(** * The theorems on sample inputs *)
(* ================================================================== *)

Lemma lower_ascii_text_ok (s : str) :
  forallb is_ascii s = true -> lower_ascii_text s = lower_ascii_text s.
Proof. intros _. reflexivity. Defined.

(** Six calls on the default context of five: the first pair is gone. *)
Lemma history_bounded_fifo_default :
  exists self',
    add_interactions conversation_context six_calls = Ok self'
    /\ length (history self') = 5
    /\ history self' = tl (map interaction_of six_calls).
Proof.
  destruct (history_bounded_fifo 5 ltac:(lia)) as (_ & _ & H).
  destruct (H six_calls eq_refl) as (s & E & L & Hh).
  exists s. split; [exact E|]. split; [exact L | exact Hh].
Defined.

(** A trigger word in capitals, the rest of the query arbitrary. *)
Lemma trigger_word_returns_canned_viscosity :
  generate_response_with_context lower_ascii_text ascii_digit answering_world
    conversation_context (u "What is VISCOSITY?")
  = Ok (format_mathematical_notation canned_response).
Proof.
  refine (proj1 (proj2 (trigger_word_returns_canned lower_ascii_text ascii_digit
            answering_world conversation_context (u "What is VISCOSITY?") _))).
  exists (u "viscosity"). split.
  - do 2 right. left. reflexivity.
  - apply str_in_spec. vm_compute. reflexivity.
Defined.

Lemma viscosity_has_trigger :
  any_keyword_in lower_ascii_text trigger_words (u "viscosity") = true.
Proof. vm_compute. reflexivity. Qed.

Lemma hello_has_no_trigger :
  any_keyword_in lower_ascii_text trigger_words (u "hello") = false.
Proof. vm_compute. reflexivity. Defined.


(** An answering client on a plain query. *)
Lemma sanitized_on_model_answer_only_hello :
  exists out,
    generate_response_with_context lower_ascii_text ascii_digit answering_world
      conversation_context (u "hello")
    = Ok out
    /\ existsb (N.eqb LT) out = false.
Proof.
  destruct (sanitized_on_model_answer_only lower_ascii_text ascii_digit
              answering_world conversation_context (u "hello"))
    as (_ & Hanswer & _).
  destruct (Hanswer) with (text := u "E = m*c**2 for <b>mass</b> & 'energy'")
    as (Hg & _).
  - intros H. apply any_keyword_in_spec in H.
    rewrite hello_has_no_trigger in H. discriminate.
  - reflexivity.
  - eexists. split; [exact Hg|]. vm_compute. reflexivity.
Defined.

(** C3 fails as stated: the canned path returns the formatter's markup
    with its literal less-than signs, which is no output of
    [sanitize_response]; the failure path returns the apology with its
    literal apostrophe. *)
Lemma every_path_sanitized_fails :
  (exists out,
      generate_response_with_context lower_ascii_text ascii_digit answering_world
        conversation_context (u "viscosity")
      = Ok out
      /\ In LT out
      /\ (forall text, out <> sanitize_response ascii_digit text))
  /\ (exists out,
      generate_response_with_context lower_ascii_text ascii_digit failing_world
        conversation_context (u "hello")
      = Ok out
      /\ In APOS out
      /\ (forall text, out <> sanitize_response ascii_digit text)).
Proof.
  split.
  - exists (format_mathematical_notation canned_response).
    split.
    { unfold generate_response_with_context.
      now rewrite viscosity_has_trigger. }
    split; [apply existsb_eqb_In, canned_markup_literal|].
    intros text E. apply (sanitize_response_no_lt ascii_digit text).
    rewrite <- E. apply existsb_eqb_In, canned_markup_literal.
  - exists (apology ++ [128640%N]).
    split.
    { unfold generate_response_with_context.
      rewrite hello_has_no_trigger. reflexivity. }
    split; [apply existsb_eqb_In; vm_compute; reflexivity|].
    intros text E.
    destruct (sanitize_response_no_markup ascii_digit text APOS)
      as (_ & _ & _ & Hap).
    + rewrite <- E. apply existsb_eqb_In. vm_compute. reflexivity.
    + now apply Hap.
Qed.

(** The first sample query of the topic detection, on the shared context:
    the topic is returned and stored. *)
Lemma detect_topic_calculus :
  fst (detect_topic lower_ascii_text conversation_context
         (u "I need help with calculus"))
  = Some (u "mathematics")
  /\ current_topic
       (snd (detect_topic lower_ascii_text conversation_context
               (u "I need help with calculus")))
     = Some (u "mathematics").
Proof.
  destruct (detect_topic_first_match lower_ascii_text lower_ascii_text_ok)
    as (_ & _ & _ & H & _).
  apply H.
Defined.

(** The second sample query of the difficulty adjustment: the level
    stored afterwards. *)
Lemma adjust_difficulty_prove :
  difficulty_level
    (adjust_difficulty lower_ascii_text conversation_context
       (u "prove the derivation"))
  = u "advanced".
Proof.
  destruct (adjust_difficulty_first_match lower_ascii_text lower_ascii_text_ok)
    as (_ & _ & _ & _ & H).
  apply H.
Defined.

(** C8. The code does not do what the claim says.  In [s s] the token
    [s] is matched twice: the first replacement wraps the first [s], the
    second wraps the [s] of the tag name the first one inserted, a letter
    that is no occurrence of the token in the input, and the markup is
    broken; wrapping the first occurrence of each distinct token leaves
    the first [s] wrapped once.  In [x x] the first [x] is wrapped twice.
    Through the whole formatter, on the text [x], the scan of the wrapped
    step finds 24 matches of 14 distinct tokens; the loop makes 23
    replacements of 28 code points each, where one per distinct token
    outside the stopwords makes 13, and the result opens with six
    less-than signs before the first letter. *)
Theorem first_occurrence_only_fails :
  highlight_symbols (u "s s")
  = u "<" ++ symbol_span (u "s") ++ u "pan class=" ++ DQUOTE :: u "symbol"
    ++ DQUOTE :: u ">s</span> s"
  /\ highlight_symbols_spec (u "s s") = symbol_span (u "s") ++ u " s"
  /\ highlight_symbols (u "x x") = symbol_span (symbol_span (u "x")) ++ u " x"
  /\ highlight_symbols_spec (u "x x") = symbol_span (u "x") ++ u " x"
  /\ format_mathematical_notation (u "x") = highlight_symbols (step_div (u "x"))
  /\ length (finditer pat_symbol (step_div (u "x"))) = 24
  /\ length (distinct_from [] (finditer pat_symbol (step_div (u "x")))) = 14
  /\ length (highlight_symbols (step_div (u "x")))
     = length (step_div (u "x")) + 23 * length (symbol_span [])
  /\ length (highlight_symbols_spec (step_div (u "x")))
     = length (step_div (u "x")) + 13 * length (symbol_span [])
  /\ str_eqb (highlight_symbols (step_div (u "x")))
       (highlight_symbols_spec (step_div (u "x"))) = false
  /\ startswith (u "<<<<<<s<span class=")
       (format_mathematical_notation (u "x")) = true.
Proof.
  repeat split; vm_compute; reflexivity.
Qed.

(* ================================================================== *)
(** * The further properties on sample inputs *)
(* ================================================================== *)

(** The first interaction stored in the shared context. *)
Lemma add_interaction_frame_first :
  exists self',
    add_interaction conversation_context (u "q1") (u "r1") = Ok self'
    /\ length (history self') = 1
    /\ current_topic self' = None.
Proof.
  eexists. split; [reflexivity|].
  destruct (add_interaction_frame conversation_context _ (u "q1") (u "r1")
              eq_refl) as (_ & Ht & _ & _ & Hl).
  split; [exact Hl | exact Ht].
Defined.

(** Three adjustments from the initial level. *)
Lemma difficulty_level_stays_in_range_sample :
  In (difficulty_level
        (fold_left (adjust_difficulty lower_ascii_text)
           [u "prove it"; u "explain it"; u "hello"] conversation_context))
     difficulty_levels.
Proof.
  refine (proj1 (difficulty_level_stays_in_range lower_ascii_text
                   conversation_context
                   [u "prove it"; u "explain it"; u "hello"] _)).
  right. left. reflexivity.
Defined.

(** A plain query with a failing model client, on the shared context. *)
Lemma query_succeeds_on_hello :
  exists text ctx',
    query lower_ascii_text ascii_digit failing_world
      (Ok (JObject [(u "query", JString (u "hello"))])) conversation_context
    = (Success text, ctx').
Proof.
  destruct (query_succeeds_on_wellformed lower_ascii_text ascii_digit
              failing_world [(u "query", JString (u "hello"))]
              conversation_context (u "hello"))
    as (text & ctx' & E & _).
  - reflexivity.
  - right. unfold conversation_context, default_max_history. cbn. lia.
  - exists text, ctx'. exact E.
Defined.

(** A body that is a number. *)
Lemma query_failure_number_body :
  query lower_ascii_text ascii_digit failing_world (Ok (JNumber 7))
    conversation_context
  = (Failure AttributeError, conversation_context)
  /\ malformed (JNumber 7).
Proof.
  split; [reflexivity|].
  destruct (query_failure_causes lower_ascii_text ascii_digit failing_world
              (Ok (JNumber 7)) conversation_context conversation_context
              AttributeError eq_refl)
    as (_ & [H | [(_ & data & E & Hm) | (H & _)]]).
  - discriminate.
  - injection E as <-. exact Hm.
  - discriminate.
Defined.

(** The empty object. *)
Lemma query_empty_object :
  query lower_ascii_text ascii_digit answering_world (Ok (JObject []))
    conversation_context
  = query lower_ascii_text ascii_digit answering_world
      (Ok (JObject [(u "query", JString [])])) conversation_context.
Proof.
  apply (query_missing_key_is_empty_query lower_ascii_text ascii_digit
           answering_world [] conversation_context).
  intros k v [].
Defined.

Lemma format_x_has_lt :
  existsb (N.eqb LT) (format_mathematical_notation (u "x")) = true.
Proof. vm_compute. reflexivity. Defined.

(** The less-than sign in the formatted text of one letter. *)
Lemma format_output_alphabet_lt :
  LT <> STAR /\ (In LT (u "x") \/ In LT markup_alphabet).
Proof.
  apply (format_output_alphabet (u "x") LT).
  apply existsb_eqb_In, format_x_has_lt.
Defined.

(** Spaces, a blank line and a tab. *)
Lemma blank_answer_sample :
  format_mathematical_notation (u "  " ++ [NL; NL; 9%N]) = [].
Proof.
  apply (blank_answer_gives_empty_response lower_ascii_text ascii_digit
           (u "  " ++ [NL; NL; 9%N])).
  reflexivity.
Defined.

(** The answering client on a plain query. *)
Lemma model_answer_markup_is_escaped_hello :
  exists rest,
    generate_response_with_context lower_ascii_text ascii_digit answering_world
      conversation_context (u "hello")
    = Ok (u "&lt;" ++ rest).
Proof.
  destruct (model_answer_markup_is_escaped lower_ascii_text ascii_digit
              answering_world conversation_context (u "hello")
              (u "E = m*c**2 for <b>mass</b> & 'energy'"))
    as [(E & _) | (tl & rest & _ & E)].
  - intros H. apply any_keyword_in_spec in H.
    rewrite hello_has_no_trigger in H. discriminate.
  - reflexivity.
  - exfalso. apply (f_equal (@length codepoint)) in E.
    vm_compute in E. discriminate.
  - exists rest. exact E.
Defined.

(** Blank steps around blank lines. *)
Lemma format_solution_blank_sample :
  format_solution lower_ascii_text (u " " ++ [NL; NL; NL] ++ u "  ") = [].
Proof.
  apply (format_solution_blank lower_ascii_text lower_ascii_text_ok);
    reflexivity.
Defined.

Lemma format_solution_sample_has_backquote :
  existsb (N.eqb 96%N) (format_solution lower_ascii_text (u "a = b")) = true.
Proof. vm_compute. reflexivity. Defined.

(** The backquote of the fence around an equation line. *)
Lemma format_solution_alphabet_backquote :
  In 96%N (u "a = b") \/ In 96%N solution_alphabet.
Proof.
  apply (format_solution_alphabet lower_ascii_text (u "a = b") 96%N).
  apply existsb_eqb_In, format_solution_sample_has_backquote.
Defined.
